(** * spoor: a shallow embedding of the logger / handler dispatch model

    The development follows [spoor.go], [filehandler/filehandler.go] and
    the [servicehandler] package.  Go strings are byte strings and are
    modelled by [string]; pointers are indices into per-type heaps kept
    in the [World]; a Go [panic] and [os.Exit] are outcomes of the
    [Result] type. *)

From Stdlib Require Import ZArith Ascii String DecimalString.
From stdpp Require Import base option list gmap strings.

Local Open Scope Z_scope.

(** ** LogLevel *)

(** [type LogLevel int]: any integer is a level, only comparisons and
    equality tests are ever applied to it. *)
Definition LogLevel : Type := Z.

Definition DEBUG : LogLevel := 0.
Definition INFO : LogLevel := 1.
Definition WARNING : LogLevel := 2.
Definition ERROR : LogLevel := 3.
Definition CRITICAL : LogLevel := 4.
Definition FATAL : LogLevel := 5.

Definition LogLevel_String (loglevel : LogLevel) : string :=
  if loglevel =? DEBUG then "DEBUG"
  else if loglevel =? INFO then "INFO"
  else if loglevel =? WARNING then "WARNING"
  else if loglevel =? ERROR then "ERROR"
  else if loglevel =? CRITICAL then "CRITICAL"
  else if loglevel =? FATAL then "FATAL"
  else "UNKNOWN".

(** ** Writers and dynamic values *)

(** The non-nil values of [io.Writer] the package meets: the standard
    error stream, a file opened by [NewFileHandler], the nil [*os.File]
    left by a failed [os.OpenFile] (its [Write] returns an error), and a
    writer supplied by the caller, named by an identifier. *)
Inductive Writer : Type :=
  | Stderr
  | File (path : string)
  | NilFile
  | Buffer (id : nat).

(** An [io.Writer] interface value; [None] is the nil interface. *)
Definition io_Writer : Type := option Writer.

(** Values of type [interface{}]: the log arguments and the entries of
    the map given to [BasicConfig]. *)
Inductive value : Type :=
  | VNil
  | VString (s : string)
  | VInt (n : Z)
  | VBool (b : bool)
  | VLevel (l : LogLevel)
  | VWriter (w : Writer).

(** ** The Go runtime and standard library the package calls *)

(** A wall-clock reading, broken down. *)
Record Time : Type := mkTime {
  t_year : Z; t_month : Z; t_day : Z;
  t_hour : Z; t_minute : Z; t_second : Z
}.

(** The library functions whose code is not part of the package.
    [time_Now n] is the reading returned by the [n]-th call of
    [time.Now], [os_OpenFile path] tells whether opening [path] for
    appending succeeds. *)
Class Runtime : Type := {
  fmt_Sprintf : string → list value → string;
  time_Now : nat → Time;
  Time_Format : Time → string → string;
  strings_ToLower : string → string;
  os_OpenFile : string → bool
}.

(** ** strings.Index and strings.Replace with n = 1 *)

Fixpoint strings_Index (s substr : string) {struct s} : option nat :=
  if String.prefix substr s then Some 0%nat
  else match s with
       | EmptyString => None
       | String _ s' => S <$> strings_Index s' substr
       end.

(** [s[n:]] *)
Fixpoint string_from (n : nat) (s : string) : string :=
  match n, s with
  | O, _ => s
  | S n', String _ s' => string_from n' s'
  | S _, EmptyString => EmptyString
  end.

(** [s[:n]] *)
Definition string_upto (n : nat) (s : string) : string := substring 0 n s.

(** [strings.Replace(s, old, new, 1)]: the text before the first
    occurrence of [old], then [new], then the text after it. *)
Definition strings_Replace1 (s old new : string) : string :=
  if String.eqb old new then s
  else match strings_Index s old with
       | None => s
       | Some j =>
           string_upto j s +:+ new +:+ string_from (j + String.length old) s
       end.

(** ** LogRecord and Formatter *)

Record LogRecord : Type := mkLogRecord {
  r_level : LogLevel;
  r_name : string;
  r_msg : string;
  r_args : list value
}.

Definition NewLogRecord (level : LogLevel) (name msg : string)
    (args : list value) : LogRecord :=
  {| r_level := level; r_name := name; r_msg := msg; r_args := args |}.

Definition LogRecord_GetLevel (r : LogRecord) : LogLevel := r_level r.

Record Formatter : Type := mkFormatter {
  f_fmt : string;
  f_dateFmt : string
}.

(** [NewFormatter(params...)]: the pointee; allocation is done by the
    callers below. *)
Definition NewFormatter_value (params : list string) : Formatter :=
  {| f_fmt := match params with p0 :: _ => p0 | [] => "" end;
     f_dateFmt := match params with _ :: p1 :: _ => p1 | _ => "" end |}.

Section Format.
Context `{RT : Runtime}.

(** The message rendered by lines 81-86 of [Formatter.Format]. *)
Definition render_msg (logRecord : LogRecord) : string :=
  match r_args logRecord with
  | [] => r_msg logRecord
  | _ :: _ => fmt_Sprintf (r_msg logRecord) (r_args logRecord)
  end.

(** The string [Formatter.Format] returns on a non-nil receiver, [now]
    being the reading [time.Now()] returned. *)
Definition Format_line (f : Formatter) (now : Time)
    (logRecord : LogRecord) : string :=
  let msg := render_msg logRecord in
  let format :=
    strings_Replace1 (f_fmt f) "{levelname}"
      (LogLevel_String (r_level logRecord)) in
  let format := strings_Replace1 format "{message}" msg in
  let format :=
    strings_Replace1 format "{asctime}" (Time_Format now (f_dateFmt f)) in
  format.
End Format.

(** ** Handlers, loggers, the global configuration *)

(** The embedded [LogHandler] struct; [h_formatter] is a [*Formatter]
    ([None] is nil), [h_logger] the sink. *)
Record LogHandler : Type := mkLogHandler {
  h_level : LogLevel;
  h_formatter : option nat;
  h_logger : io_Writer
}.

(** The dynamic types behind an [ILogHandler] value.  [StreamHandler]
    embeds [LogHandler], [FileHandler] embeds [StreamHandler] and
    [ServiceHandler] embeds [LogHandler]; the extra fields are kept with
    the tag. *)
Inductive HandlerKind : Type :=
  | IsLogHandler
  | IsStreamHandler
  | IsFileHandler (filename mode : string)
  | IsServiceHandler (service : option nat).

Record Handler : Type := mkHandler {
  hd_kind : HandlerKind;
  hd_base : LogHandler
}.

(** An [ILogHandler] interface value: nil, or a pointer to a handler. *)
Definition ILogHandler : Type := option nat.

Record Logger : Type := mkLogger {
  l_level : LogLevel;
  l_name : string;
  l_handlers : list ILogHandler
}.

Record Config : Type := mkConfig {
  c_filename : string;
  c_filemode : string;
  c_format : string;
  c_datefmt : string;
  c_level : LogLevel;
  c_stream : io_Writer
}.

(** The operations of the external service logger. *)
Inductive ServiceOp : Type := OpInfo | OpWarning | OpError.

(** What a run leaves behind, oldest first: the entry into the [Handle]
    method of a handler, a [Write] accepted by a writer, and a call of an
    operation of the service logger. *)
Inductive Event : Type :=
  | EvHandle (h : nat) (logRecord : LogRecord)
  | EvWrite (w : Writer) (data : string)
  | EvService (lg : nat) (op : ServiceOp) (msg : string).

(** The state of the process: the package variables [config],
    [loggers.items] and [servicehandler.logger], the objects allocated
    so far, the number of clock readings taken and the events. *)
Record World : Type := mkWorld {
  config : Config;
  loggers_items : gmap string nat;
  logger_heap : list Logger;
  handler_heap : list Handler;
  formatter_heap : list Formatter;
  servicehandler_logger : option nat;
  ticks : nat;
  events : list Event
}.

Definition initial_config : Config :=
  {| c_filename := ""; c_filemode := "";
     c_format := "{levelname}: {asctime} - {message}";
     c_datefmt := "2006-01-02 15:04:05";
     c_level := INFO; c_stream := None |}.

(** The state at process start: the initial values of the package
    variables, nothing allocated. *)
Definition initial_world : World :=
  {| config := initial_config; loggers_items := ∅; logger_heap := [];
     handler_heap := []; formatter_heap := [];
     servicehandler_logger := None; ticks := 0; events := [] |}.

Definition set_config (c : Config) (w : World) : World :=
  mkWorld c (loggers_items w) (logger_heap w) (handler_heap w)
    (formatter_heap w) (servicehandler_logger w) (ticks w) (events w).
Definition set_loggers_items (m : gmap string nat) (w : World) : World :=
  mkWorld (config w) m (logger_heap w) (handler_heap w)
    (formatter_heap w) (servicehandler_logger w) (ticks w) (events w).
Definition set_logger_heap (h : list Logger) (w : World) : World :=
  mkWorld (config w) (loggers_items w) h (handler_heap w)
    (formatter_heap w) (servicehandler_logger w) (ticks w) (events w).
Definition set_handler_heap (h : list Handler) (w : World) : World :=
  mkWorld (config w) (loggers_items w) (logger_heap w) h
    (formatter_heap w) (servicehandler_logger w) (ticks w) (events w).
Definition set_formatter_heap (h : list Formatter) (w : World) : World :=
  mkWorld (config w) (loggers_items w) (logger_heap w) (handler_heap w)
    h (servicehandler_logger w) (ticks w) (events w).
Definition set_ticks (n : nat) (w : World) : World :=
  mkWorld (config w) (loggers_items w) (logger_heap w) (handler_heap w)
    (formatter_heap w) (servicehandler_logger w) n (events w).
Definition set_events (e : list Event) (w : World) : World :=
  mkWorld (config w) (loggers_items w) (logger_heap w) (handler_heap w)
    (formatter_heap w) (servicehandler_logger w) (ticks w) e.

(** ** Outcomes and the monad of the package's operations *)

(** A call returns, panics, or ends the process through [os.Exit]. *)
Inductive Result (A : Type) : Type :=
  | Ret (a : A) (w : World)
  | Panic (w : World)
  | Exit (code : Z) (w : World).
Arguments Ret {A} a w.
Arguments Panic {A} w.
Arguments Exit {A} code w.

Definition M (A : Type) : Type := World → Result A.

Global Instance M_ret : MRet M := λ A a w, Ret a w.
Global Instance M_bind : MBind M := λ A B f m w,
  match m w with
  | Ret a w' => f a w'
  | Panic w' => Panic w'
  | Exit c w' => Exit c w'
  end.

Definition panic {A : Type} : M A := λ w, Panic w.
Definition os_Exit {A : Type} (code : Z) : M A := λ w, Exit code w.
Definition get_world : M World := λ w, Ret w w.
Definition modify (f : World → World) : M unit := λ w, Ret () (f w).
Definition record_event (e : Event) : M unit :=
  modify (λ w, set_events (events w ++ [e]) w).

(** The world an outcome ends in. *)
Definition world_of {A : Type} (r : Result A) : World :=
  match r with Ret _ w | Panic w | Exit _ w => w end.

Definition is_Panic {A : Type} (r : Result A) : bool :=
  match r with Panic _ => true | _ => false end.

Definition is_Exit {A : Type} (r : Result A) : bool :=
  match r with Exit _ _ => true | _ => false end.

(** Dereferencing a pointer; a nil or dangling pointer panics. *)
Definition deref {A : Type} (heap : World → list A) (p : nat) : M A :=
  w ← get_world;
  match heap w !! p with
  | Some x => mret x
  | None => panic
  end.

Definition deref_handler (h : ILogHandler) : M (nat * Handler) :=
  match h with
  | None => panic
  | Some p => hd ← deref handler_heap p; mret (p, hd)
  end.

(** ** The methods and functions of the package *)

Definition newline : string := String "010"%char EmptyString.

Definition with_level (level : LogLevel) (h : LogHandler) : LogHandler :=
  mkLogHandler level (h_formatter h) (h_logger h).
Definition with_formatter (f : option nat) (h : LogHandler) : LogHandler :=
  mkLogHandler (h_level h) f (h_logger h).
Definition with_logger (s : io_Writer) (h : LogHandler) : LogHandler :=
  mkLogHandler (h_level h) (h_formatter h) s.
Definition map_base (g : LogHandler → LogHandler) (hd : Handler) : Handler :=
  mkHandler (hd_kind hd) (g (hd_base hd)).

Section Operations.
Context `{RT : Runtime}.

(** [time.Now()] *)
Definition time_Now_call : M Time :=
  λ w, Ret (time_Now (ticks w)) (set_ticks (S (ticks w)) w).

(** [fmt.Fprintln(w, s)]: one [Write] of [s] and a newline; the error
    a writer returns is dropped, a nil writer panics. *)
Definition fmt_Fprintln (w : io_Writer) (s : string) : M unit :=
  match w with
  | None => panic
  | Some NilFile => mret ()
  | Some wr => record_event (EvWrite wr (s +:+ newline))
  end.

(** *** Formatter *)

Definition NewFormatter (params : list string) : M nat :=
  w ← get_world;
  modify (set_formatter_heap
            (formatter_heap w ++ [NewFormatter_value params]));;
  mret (length (formatter_heap w)).

(** The method [Format] of a [Formatter] pointer: the clock is read
    first, the receiver is dereferenced at the first use of [f.fmt]. *)
Definition Formatter_Format (f : option nat) (logRecord : LogRecord)
    : M string :=
  now ← time_Now_call;
  match f with
  | None => panic
  | Some p =>
      fm ← deref formatter_heap p;
      mret (Format_line fm now logRecord)
  end.

(** *** LogHandler *)

Definition alloc_handler (hd : Handler) : M nat :=
  w ← get_world;
  modify (set_handler_heap (handler_heap w ++ [hd]));;
  mret (length (handler_heap w)).

Definition update_handler (h : nat) (g : LogHandler → LogHandler)
    : M unit :=
  hd ← deref handler_heap h;
  modify (λ w, set_handler_heap (<[h := map_base g hd]> (handler_heap w)) w).

(** The [LogHandler] struct [NewLogHandler] returns a pointer to. *)
Definition NewLogHandler_value : M LogHandler :=
  w ← get_world;
  f ← NewFormatter [c_format (config w); c_datefmt (config w)];
  mret (with_formatter (Some f)
          (with_level (c_level (config w)) (mkLogHandler 0 None None))).

Definition NewLogHandler : M nat :=
  lh ← NewLogHandler_value;
  alloc_handler (mkHandler IsLogHandler lh).

Definition LogHandler_GetLevel (h : nat) : M LogLevel :=
  hd ← deref handler_heap h; mret (h_level (hd_base hd)).

Definition LogHandler_SetLevel (h : nat) (level : LogLevel) : M unit :=
  update_handler h (with_level level).

Definition LogHandler_GetFormatter (h : nat) : M (option nat) :=
  hd ← deref handler_heap h; mret (h_formatter (hd_base hd)).

Definition LogHandler_SetFormatter (h : nat) (formatter : option nat)
    : M unit :=
  update_handler h (with_formatter formatter).

Definition LogHandler_Format (h : nat) (logRecord : LogRecord) : M string :=
  hd ← deref handler_heap h;
  Formatter_Format (h_formatter (hd_base hd)) logRecord.

Definition LogHandler_Emit (h : nat) (logRecord : LogRecord) : M unit :=
  hd ← deref handler_heap h;
  line ← LogHandler_Format h logRecord;
  fmt_Fprintln (h_logger (hd_base hd)) line.

Definition LogHandler_Handle (h : nat) (logRecord : LogRecord) : M unit :=
  record_event (EvHandle h logRecord);;
  LogHandler_Emit h logRecord.

(** *** StreamHandler and FileHandler *)

(** The [StreamHandler] struct [NewStreamHandler] returns a pointer
    to; it consists of its embedded [LogHandler]. *)
Definition NewStreamHandler_value (stream : list io_Writer) : M LogHandler :=
  let handlerStream :=
    match stream with s0 :: _ => s0 | [] => Some Stderr end in
  lh ← NewLogHandler_value;
  mret (with_logger handlerStream lh).

Definition NewStreamHandler (stream : list io_Writer) : M nat :=
  sh ← NewStreamHandler_value stream;
  alloc_handler (mkHandler IsStreamHandler sh).

Definition NewFileHandler (filename mode : string) : M nat :=
  let logfile := if os_OpenFile filename then File filename else NilFile in
  sh ← NewStreamHandler_value [Some logfile];
  alloc_handler (mkHandler (IsFileHandler filename mode) sh).

(** *** ServiceHandler *)

Definition NewServiceHandler (service : option nat) : M nat :=
  lh ← NewLogHandler_value;
  alloc_handler (mkHandler (IsServiceHandler service) lh).

(** The operation the [switch] of [ServiceHandler.Emit] selects. *)
Definition service_op (level : LogLevel) : ServiceOp :=
  if level =? WARNING then OpWarning
  else if level =? ERROR then OpError
  else OpInfo.

(** A method call on the package variable [logger], an interface
    value: it panics when the variable holds nil. *)
Definition logger_call (op : ServiceOp) (msg : string) : M unit :=
  w ← get_world;
  match servicehandler_logger w with
  | None => panic
  | Some lg => record_event (EvService lg op msg)
  end.

Definition ServiceHandler_Emit (h : nat) (logRecord : LogRecord) : M unit :=
  msg ← LogHandler_Format h logRecord;
  logger_call (service_op (LogRecord_GetLevel logRecord)) msg.

Definition ServiceHandler_Handle (h : nat) (logRecord : LogRecord)
    : M unit :=
  record_event (EvHandle h logRecord);;
  ServiceHandler_Emit h logRecord.

(** *** Calls through the ILogHandler interface *)

Definition ILogHandler_GetLevel (handler : ILogHandler) : M LogLevel :=
  ph ← deref_handler handler;
  mret (h_level (hd_base ph.2)).

Definition ILogHandler_Handle (handler : ILogHandler)
    (logRecord : LogRecord) : M unit :=
  ph ← deref_handler handler;
  match hd_kind ph.2 with
  | IsServiceHandler _ => ServiceHandler_Handle ph.1 logRecord
  | _ => LogHandler_Handle ph.1 logRecord
  end.
End Operations.

(** ** Logger, the registry and the global configuration *)

Definition with_l_level (level : LogLevel) (l : Logger) : Logger :=
  mkLogger level (l_name l) (l_handlers l).
Definition with_l_handlers (hs : list ILogHandler) (l : Logger) : Logger :=
  mkLogger (l_level l) (l_name l) hs.

Definition with_filename (s : string) (c : Config) : Config :=
  mkConfig s (c_filemode c) (c_format c) (c_datefmt c) (c_level c) (c_stream c).
Definition with_filemode (s : string) (c : Config) : Config :=
  mkConfig (c_filename c) s (c_format c) (c_datefmt c) (c_level c) (c_stream c).
Definition with_format (s : string) (c : Config) : Config :=
  mkConfig (c_filename c) (c_filemode c) s (c_datefmt c) (c_level c) (c_stream c).
Definition with_datefmt (s : string) (c : Config) : Config :=
  mkConfig (c_filename c) (c_filemode c) (c_format c) s (c_level c) (c_stream c).
Definition with_stream (s : io_Writer) (c : Config) : Config :=
  mkConfig (c_filename c) (c_filemode c) (c_format c) (c_datefmt c) (c_level c) s.

(** The type assertions [value.(string)] and [value.(io.Writer)]. *)
Definition assert_string (v : value) : M string :=
  match v with VString s => mret s | _ => panic end.
Definition assert_Writer (v : value) : M Writer :=
  match v with VWriter s => mret s | _ => panic end.

Section Logger.
Context `{RT : Runtime}.

Definition NewLogger (name : string) : M nat :=
  w ← get_world;
  modify (set_logger_heap (logger_heap w ++ [mkLogger 0 name []]));;
  mret (length (logger_heap w)).

Definition update_logger (l : nat) (g : Logger → Logger) : M unit :=
  lg ← deref logger_heap l;
  modify (λ w, set_logger_heap (<[l := g lg]> (logger_heap w)) w).

Definition Logger_GetName (l : nat) : M string :=
  lg ← deref logger_heap l; mret (l_name lg).

Definition Logger_SetLevel (l : nat) (level : LogLevel) : M unit :=
  update_logger l (with_l_level level).

Definition Logger_AddHandler (l : nat) (handler : ILogHandler) : M unit :=
  update_logger l (λ lg, with_l_handlers (l_handlers lg ++ [handler]) lg).

(** The [for ... range l.handlers] loop of [Logger.Log]. *)
Fixpoint Log_range (level : LogLevel) (logRecord : LogRecord)
    (handlers : list ILogHandler) : M unit :=
  match handlers with
  | [] => mret ()
  | handler :: rest =>
      hl ← ILogHandler_GetLevel handler;
      (if level >=? hl then ILogHandler_Handle handler logRecord
       else mret ());;
      Log_range level logRecord rest
  end.

Definition Logger_Log (l : nat) (level : LogLevel) (msg : string)
    (args : list value) : M unit :=
  lg ← deref logger_heap l;
  let logRecord := NewLogRecord level (l_name lg) msg args in
  Log_range level logRecord (l_handlers lg);;
  if level =? FATAL then os_Exit 1 else mret ().

Definition Logger_Debug (l : nat) (msg : string) (args : list value) :=
  Logger_Log l DEBUG msg args.
Definition Logger_Info (l : nat) (msg : string) (args : list value) :=
  Logger_Log l INFO msg args.
Definition Logger_Warn (l : nat) (msg : string) (args : list value) :=
  Logger_Log l WARNING msg args.
Definition Logger_Error (l : nat) (msg : string) (args : list value) :=
  Logger_Log l ERROR msg args.
Definition Logger_Critical (l : nat) (msg : string) (args : list value) :=
  Logger_Log l CRITICAL msg args.

(** [GetLogger(loggername...)]; the lock makes the body atomic. *)
Definition GetLogger (loggername : list string) : M nat :=
  let name := match loggername with [n] => n | _ => "root" end in
  w ← get_world;
  match loggers_items w !! name with
  | Some logger => mret logger
  | None =>
      logger ← NewLogger name;
      modify (λ w, set_loggers_items (<[name := logger]> (loggers_items w)) w);;
      mret logger
  end.

(** One iteration of the loop of [BasicConfig]. *)
Definition BasicConfig_entry (k : string) (v : value) : M unit :=
  let key := strings_ToLower k in
  if String.eqb key "filename" then
    s ← assert_string v; modify (λ w, set_config (with_filename s (config w)) w)
  else if String.eqb key "filemode" then
    s ← assert_string v; modify (λ w, set_config (with_filemode s (config w)) w)
  else if String.eqb key "format" then
    s ← assert_string v; modify (λ w, set_config (with_format s (config w)) w)
  else if String.eqb key "datefmt" then
    s ← assert_string v; modify (λ w, set_config (with_datefmt s (config w)) w)
  else if String.eqb key "stream" then
    s ← assert_Writer v;
    modify (λ w, set_config (with_stream (Some s) (config w)) w)
  else mret ().

(** [BasicConfig(conf)]; [conf] lists the entries of the map in the
    order the [range] loop visits them. *)
Fixpoint BasicConfig (conf : list (string * value)) : M unit :=
  match conf with
  | [] => mret ()
  | (k, v) :: rest => BasicConfig_entry k v;; BasicConfig rest
  end.
End Logger.

(** ** A runtime to run examples on *)

(** The instance below fixes the library functions well enough to run
    the package on concrete inputs.  [frag_Sprintf] agrees with
    [fmt.Sprintf] on format strings whose verbs are [%s], [%d], [%v] and
    [%%] (no flags, width or precision) applied to strings, integers and
    booleans; [frag_Time_Format] with [Time.Format] on layouts whose
    reference-time elements are among [2006 01 02 15 04 05];
    [frag_ToLower] with [strings.ToLower] on ASCII text. *)

Definition decimal (n : Z) : string := NilZero.string_of_int (Z.to_int n).

Definition pad2 (n : Z) : string :=
  if n <? 10 then "0" +:+ decimal n else decimal n.

Definition type_name (v : value) : string :=
  match v with
  | VNil => "<nil>"
  | VString _ => "string"
  | VInt _ => "int"
  | VBool _ => "bool"
  | VLevel _ => "spoor.LogLevel"
  | VWriter _ => "io.Writer"
  end.

Definition default_text (v : value) : string :=
  match v with
  | VNil => "<nil>"
  | VString s => s
  | VInt n => decimal n
  | VBool b => if b then "true" else "false"
  | VLevel l => LogLevel_String l
  | VWriter _ => "?"
  end.

Definition bad_verb (verb : ascii) (v : value) : string :=
  match v with
  | VNil => "%!" +:+ String verb "(<nil>)"
  | _ => "%!" +:+ String verb ("(" +:+ type_name v +:+ "=" +:+ default_text v +:+ ")")
  end.

Definition render_verb (verb : ascii) (v : value) : string :=
  match v with
  | VString s =>
      if (Ascii.eqb verb "s" || Ascii.eqb verb "v")%bool then s
      else bad_verb verb v
  | VInt n =>
      if (Ascii.eqb verb "d" || Ascii.eqb verb "v")%bool then decimal n
      else bad_verb verb v
  | VBool _ | VNil =>
      if Ascii.eqb verb "v" then default_text v else bad_verb verb v
  | VLevel l =>
      if (Ascii.eqb verb "s" || Ascii.eqb verb "v")%bool then LogLevel_String l
      else if Ascii.eqb verb "d" then decimal l
      else bad_verb verb v
  | VWriter _ => bad_verb verb v
  end.

Fixpoint extra_args (args : list value) : string :=
  match args with
  | [] => ""
  | [v] => type_name v +:+ "=" +:+ default_text v
  | v :: rest => type_name v +:+ "=" +:+ default_text v +:+ ", " +:+ extra_args rest
  end.

Definition extra (args : list value) : string :=
  match args with
  | [] => ""
  | _ => "%!(EXTRA " +:+ extra_args args +:+ ")"
  end.

Fixpoint sprintf_from (after_percent : bool) (args : list value)
    (format : string) : string :=
  match format with
  | EmptyString =>
      (if after_percent then "%!(NOVERB)" else "") +:+ extra args
  | String c rest =>
      if after_percent then
        if Ascii.eqb c "%" then String c (sprintf_from false args rest)
        else match args with
             | [] => "%!" +:+ String c "(MISSING)" +:+ sprintf_from false [] rest
             | v :: args' => render_verb c v +:+ sprintf_from false args' rest
             end
      else if Ascii.eqb c "%" then sprintf_from true args rest
      else String c (sprintf_from false args rest)
  end.

Definition frag_Sprintf (format : string) (args : list value) : string :=
  sprintf_from false args format.

(** [skip] counts the characters of an element still to pass over. *)
Fixpoint layout_from (t : Time) (skip : nat) (layout : string) : string :=
  match layout with
  | EmptyString => EmptyString
  | String c rest =>
      match skip with
      | S k => layout_from t k rest
      | O =>
          if String.prefix "2006" layout then
            decimal (t_year t) +:+ layout_from t 3 rest
          else if String.prefix "01" layout then
            pad2 (t_month t) +:+ layout_from t 1 rest
          else if String.prefix "02" layout then
            pad2 (t_day t) +:+ layout_from t 1 rest
          else if String.prefix "15" layout then
            pad2 (t_hour t) +:+ layout_from t 1 rest
          else if String.prefix "04" layout then
            pad2 (t_minute t) +:+ layout_from t 1 rest
          else if String.prefix "05" layout then
            pad2 (t_second t) +:+ layout_from t 1 rest
          else String c (layout_from t 0 rest)
      end
  end.

Definition frag_Time_Format (t : Time) (layout : string) : string :=
  layout_from t 0 layout.

Definition lower_ascii (c : ascii) : ascii :=
  let n := nat_of_ascii c in
  if ((65 <=? n) && (n <=? 90))%nat then ascii_of_nat (n + 32) else c.

Fixpoint frag_ToLower (s : string) : string :=
  match s with
  | EmptyString => EmptyString
  | String c rest => String (lower_ascii c) (frag_ToLower rest)
  end.

(** The clock of the examples: 31 October 2026, noon, one second per
    reading; every file can be opened. *)
Definition go_fragment : Runtime :=
  {| fmt_Sprintf := frag_Sprintf;
     time_Now := λ n, mkTime 2026 10 31 12 0 (Z.of_nat n `mod` 60);
     Time_Format := frag_Time_Format;
     strings_ToLower := frag_ToLower;
     os_OpenFile := λ _, true |}.

(** ** Whole runs of a client program *)

(** The calls a client of the package can make. *)
Inductive Call : Type :=
  | CallGetLogger (loggername : list string)
  | CallNewLogger (name : string)
  | CallGetName (l : nat)
  | CallSetLevel (l : nat) (level : LogLevel)
  | CallAddHandler (l : nat) (handler : ILogHandler)
  | CallLog (l : nat) (level : LogLevel) (msg : string) (args : list value)
  | CallBasicConfig (conf : list (string * value))
  | CallNewFormatter (params : list string)
  | CallNewLogHandler
  | CallNewStreamHandler (stream : list io_Writer)
  | CallNewFileHandler (filename mode : string)
  | CallNewServiceHandler (service : option nat)
  | CallHandlerSetLevel (h : nat) (level : LogLevel)
  | CallHandlerSetFormatter (h : nat) (formatter : option nat)
  | CallHandle (handler : ILogHandler) (logRecord : LogRecord)
  | CallEmit (h : nat) (logRecord : LogRecord)
  | CallServiceEmit (h : nat) (logRecord : LogRecord).

Definition discard {A : Type} (m : M A) : M unit := _ ← m; mret ().

Section Runs.
Context `{RT : Runtime}.

Definition exec (c : Call) : M unit :=
  match c with
  | CallGetLogger loggername => discard (GetLogger loggername)
  | CallNewLogger name => discard (NewLogger name)
  | CallGetName l => discard (Logger_GetName l)
  | CallSetLevel l level => Logger_SetLevel l level
  | CallAddHandler l handler => Logger_AddHandler l handler
  | CallLog l level msg args => Logger_Log l level msg args
  | CallBasicConfig conf => BasicConfig conf
  | CallNewFormatter params => discard (NewFormatter params)
  | CallNewLogHandler => discard NewLogHandler
  | CallNewStreamHandler stream => discard (NewStreamHandler stream)
  | CallNewFileHandler filename mode => discard (NewFileHandler filename mode)
  | CallNewServiceHandler service => discard (NewServiceHandler service)
  | CallHandlerSetLevel h level => LogHandler_SetLevel h level
  | CallHandlerSetFormatter h formatter => LogHandler_SetFormatter h formatter
  | CallHandle handler logRecord => ILogHandler_Handle handler logRecord
  | CallEmit h logRecord => LogHandler_Emit h logRecord
  | CallServiceEmit h logRecord => ServiceHandler_Emit h logRecord
  end.

(** The world after a sequence of calls; a panic is recovered by the
    client, which goes on, and [os.Exit] ends the run. *)
Fixpoint run (cs : list Call) (w : World) : World :=
  match cs with
  | [] => w
  | c :: rest =>
      match exec c w with
      | Ret _ w' | Panic w' => run rest w'
      | Exit _ w' => w'
      end
  end.
End Runs.

(** ** Observations *)

(** The handlers whose [Handle] was entered, with the record passed,
    oldest first. *)
Definition handle_calls (evs : list Event) : list (nat * LogRecord) :=
  omap (λ e, match e with EvHandle h r => Some (h, r) | _ => None end) evs.

(** The handler an interface value points to, when its threshold lets
    [level] through. *)
Definition passes (w : World) (level : LogLevel) (handler : ILogHandler)
    : option nat :=
  p ← handler;
  hd ← handler_heap w !! p;
  if level >=? h_level (hd_base hd) then Some p else None.

(** The handlers of a list that let [level] through, in list order. *)
Definition gated (w : World) (level : LogLevel) (handlers : list ILogHandler)
    : list nat :=
  omap (passes w level) handlers.

Definition rmap {A : Type} (g : World → World) (r : Result A) : Result A :=
  match r with
  | Ret a w => Ret a (g w)
  | Panic w => Panic (g w)
  | Exit c w => Exit c (g w)
  end.

(** The world with the [level] field of every logger blanked. *)
Definition forget_logger_levels (w : World) : World :=
  set_logger_heap (with_l_level 0 <$> logger_heap w) w.

(** An entry of the map given to [BasicConfig] that the loop passes
    without a failed type assertion. *)
Definition entry_ok `{RT : Runtime} (kv : string * value) : bool :=
  let key := strings_ToLower kv.1 in
  if (String.eqb key "filename" || String.eqb key "filemode"
      || String.eqb key "format" || String.eqb key "datefmt")%bool
  then match kv.2 with VString _ => true | _ => false end
  else if String.eqb key "stream"
  then match kv.2 with VWriter _ => true | _ => false end
  else true.

(** ** Single-pass substitution, as the specification words it *)

(** The text for a placeholder, when it is still unused and the
    template starts with it. *)
Definition hit (text : option string) (placeholder template : string)
    : option string :=
  x ← text; if String.prefix placeholder template then Some x else None.

(** One scan of the line template: at each position a placeholder that
    has not been used yet is replaced by its text, which is not scanned
    again; everything else is copied.  [skip] counts the characters of a
    replaced placeholder still to pass over; an argument is [None] once
    its placeholder has been used. *)

Fixpoint single_pass (levelname message asctime : option string)
    (skip : nat) (template : string) : string :=
  match template with
  | EmptyString => EmptyString
  | String c rest =>
      match skip with
      | S k => single_pass levelname message asctime k rest
      | O =>
          match hit levelname "{levelname}" template with
          | Some x => x +:+ single_pass None message asctime 10 rest
          | None =>
          match hit message "{message}" template with
          | Some y => y +:+ single_pass levelname None asctime 8 rest
          | None =>
          match hit asctime "{asctime}" template with
          | Some z => z +:+ single_pass levelname message None 8 rest
          | None => String c (single_pass levelname message asctime 0 rest)
          end end end
      end
  end.

(** [Format] as a single non-recursive pass over the line template. *)
Definition Format_single_pass `{RT : Runtime} (f : Formatter) (now : Time)
    (logRecord : LogRecord) : string :=
  single_pass (Some (LogLevel_String (r_level logRecord)))
    (Some (render_msg logRecord))
    (Some (Time_Format now (f_dateFmt f))) 0 (f_fmt f).

(** [old] occurs in [s] at offset [length pre]. *)
Definition occurs_at (old s pre post : string) : Prop :=
  s = pre +:+ old +:+ post.

(** [s'] is [s] with the leftmost occurrence of [old] replaced by [new],
    or [s] itself when [old] does not occur in it. *)
Definition first_replaced (old new s s' : string) : Prop :=
  ((∀ a b, ¬ occurs_at old s a b) ∧ s' = s) ∨
  (∃ pre post, occurs_at old s pre post ∧
     (∀ a b, occurs_at old s a b → (String.length pre ≤ String.length a)%nat) ∧
     s' = pre +:+ new +:+ post).

(** The formatting scenario: a formatter is built and formats a record
    that carries one argument. *)
Definition format_scenario `{RT : Runtime} : M string :=
  formatter ← NewFormatter ["{levelname}: {message}"; "2006-01-02"];
  Formatter_Format (Some formatter)
    (NewLogRecord ERROR "x" "failed: %s" [VString "disk full"]).

(** A computation keeps the relation [P] between the world it starts in
    and the world it ends in. *)
Definition keeps (P : World → World → Prop) {A : Type} (m : M A) : Prop :=
  ∀ w, P w (world_of (m w)).

(** A computation that neither reads nor writes the loggers: replacing
    the logger heap beforehand or afterwards comes to the same. *)
Definition ignores_loggers {A : Type} (m : M A) : Prop :=
  ∀ heap w, m (set_logger_heap heap w) = rmap (set_logger_heap heap) (m w).

(** The world after [n] more clock readings and the events [evs]. *)
Definition touch (n : nat) (evs : list Event) (w : World) : World :=
  set_ticks (n + ticks w) (set_events (events w ++ evs) w).

Definition has {A : Type} (o : option A) : bool :=
  match o with Some _ => true | None => false end.

(** A handler whose [Handle] returns: the pointer, its formatter and
    its sink are there. *)
Definition sound_handler (w : World) (handler : ILogHandler) : bool :=
  match handler ≫= (handler_heap w !!.) with
  | None => false
  | Some hd =>
      has (h_formatter (hd_base hd) ≫= (formatter_heap w !!.)) &&
      match hd_kind hd with
      | IsServiceHandler _ => has (servicehandler_logger w)
      | _ => has (h_logger (hd_base hd))
      end
  end.

(** A constructor of handlers that, run in [w], returns a new handler
    with the level of the configuration of [w] and a formatter allocated
    by the call, made of the format and date format of that
    configuration. *)
Definition takes_snapshot (m : M nat) (w : World) : Prop :=
  ∃ h w1 hd f,
    m w = Ret h w1 ∧
    handler_heap w !! h = None ∧
    handler_heap w1 !! h = Some hd ∧
    h_level (hd_base hd) = c_level (config w) ∧
    h_formatter (hd_base hd) = Some f ∧
    formatter_heap w !! f = None ∧
    formatter_heap w1 !! f
      = Some (mkFormatter (c_format (config w)) (c_datefmt (config w))).

(** ** Worlds of the examples *)

(** A stream handler at level [ERROR] writing to a buffer. *)
Definition handle_demo_world : World :=
  mkWorld initial_config ∅ []
    [mkHandler IsStreamHandler (mkLogHandler ERROR (Some 0%nat) (Some (Buffer 7)))]
    [mkFormatter "{levelname}: {message}" ""] None 0 [].

(** A logger with two stream handlers: the first lets [WARNING] and
    above through, the second [INFO] and above. *)
Definition dispatch_demo_world : World :=
  mkWorld initial_config ∅
    [mkLogger 0 "app" [Some 0%nat; Some 1%nat]]
    [mkHandler IsStreamHandler (mkLogHandler WARNING (Some 0%nat) (Some (Buffer 1)));
     mkHandler IsStreamHandler (mkLogHandler INFO (Some 0%nat) (Some (Buffer 2)))]
    [mkFormatter "{levelname}: {message}" ""] None 0 [].



(** A program that makes a logger named ["x"] by [NewLogger], asks the
    registry for ["x"], and makes another one by [NewLogger]. *)
Definition same_name_demo_calls : list Call :=
  [CallNewLogger "x"; CallGetLogger ["x"]; CallNewLogger "x"].

Definition same_name_demo_world : World :=
  run (RT := go_fragment) same_name_demo_calls initial_world.

(** ** Further notions *)

(** A level outside the six constants. *)
Definition unknown_level (l : LogLevel) : Prop := l < 0 ∨ 5 < l.

(** Every name the registry binds points to a logger of that name. *)
Definition registry_ok (w : World) : Prop :=
  ∀ name p, loggers_items w !! name = Some p →
            ∃ lg, logger_heap w !! p = Some lg ∧ l_name lg = name.

(** Every logger of [w] is still there in [w'], under the same name and
    with a handler list that extends the one it had. *)
Definition loggers_grow (w w' : World) : Prop :=
  ∀ p lg, logger_heap w !! p = Some lg →
          ∃ lg', logger_heap w' !! p = Some lg' ∧
                 l_name lg' = l_name lg ∧
                 l_handlers lg `prefix_of` l_handlers lg'.

(** The name [GetLogger] looks up for its arguments. *)
Definition requested_name (loggername : list string) : string :=
  match loggername with [n] => n | _ => "root" end.

(** A handler that is there and whose threshold is above [level]. *)
Definition silent_for (w : World) (level : LogLevel) (handler : ILogHandler)
    : bool :=
  match handler ≫= (handler_heap w !!.) with
  | Some hd => level <? h_level (hd_base hd)
  | None => false
  end.

(** A [ServiceHandler] whose threshold lets [level] through. *)
Definition service_passes (w : World) (level : LogLevel)
    (handler : ILogHandler) : bool :=
  match handler ≫= (handler_heap w !!.) with
  | Some hd =>
      match hd_kind hd with
      | IsServiceHandler _ => level >=? h_level (hd_base hd)
      | _ => false
      end
  | None => false
  end.

(** What [Log] does once its loop is over, in the world the loop left. *)
Definition after_loop (level : LogLevel) (w : World) : Result unit :=
  if level =? FATAL then Exit 1 w else Ret () w.

(** [w1] is [w] with handlers and formatters added at the end of their
    heaps, and nothing else changed. *)
Definition only_allocates (w w1 : World) : Prop :=
  handler_heap w `prefix_of` handler_heap w1 ∧
  formatter_heap w `prefix_of` formatter_heap w1 ∧
  logger_heap w1 = logger_heap w ∧
  loggers_items w1 = loggers_items w ∧
  config w1 = config w ∧
  events w1 = events w ∧
  ticks w1 = ticks w.

(** A program that makes a logger, a service handler, and attaches the
    one to the other. *)
Definition service_demo_calls : list Call :=
  [CallNewLogger "svc"; CallNewServiceHandler None;
   CallAddHandler 0 (Some 0%nat)].

(** * Properties *)

(** ** The runtime of the examples *)

Example frag_Sprintf_s :
  frag_Sprintf "failed: %s" [VString "disk full"] = "failed: disk full".
Proof. reflexivity. Qed.

Example frag_Sprintf_missing :
  frag_Sprintf "%d items, %s" [VInt 3] = "3 items, %!s(MISSING)".
Proof. reflexivity. Qed.

Example frag_Time_Format_default :
  frag_Time_Format (mkTime 2026 10 31 12 0 7) "2006-01-02 15:04:05"
  = "2026-10-31 12:00:07".
Proof. reflexivity. Qed.

Example frag_ToLower_mixed : frag_ToLower "FileName" = "filename".
Proof. reflexivity. Qed.

(** ** Strings *)

Section Strings.
Implicit Types s old new pre post a b : string.
Local Arguments String.append !_ _ / : simpl nomatch.

Lemma prefix_spec old s :
  String.prefix old s = true ↔ ∃ b, s = old +:+ b.
Proof.
  revert s. induction old as [|c old IH]; intros s; simpl.
  - split; [intros _; by exists s | by destruct s].
  - destruct s as [|d s]; simpl.
    + split; [done | by intros [b Hb]].
    + destruct (ascii_dec c d) as [->|Hne].
      * rewrite IH. split; intros [b Hb]; exists b; simpl in *; congruence.
      * split; [done | intros [b Hb]; simpl in *; congruence].
Qed.

Lemma append_length a b :
  String.length (a +:+ b) = (String.length a + String.length b)%nat.
Proof. induction a; simpl; congruence. Qed.

Lemma string_upto_app pre post :
  string_upto (String.length pre) (pre +:+ post) = pre.
Proof.
  unfold string_upto. induction pre as [|c pre IH]; simpl.
  - by destruct post.
  - by rewrite IH.
Qed.

Lemma string_from_app pre post :
  string_from (String.length pre) (pre +:+ post) = post.
Proof. induction pre; simpl; [by destruct post | done]. Qed.

Lemma string_from_app2 pre old post :
  string_from (String.length pre + String.length old) (pre +:+ old +:+ post)
  = post.
Proof. induction pre; simpl; [apply string_from_app | done]. Qed.

Lemma strings_Index_unfold s old :
  strings_Index s old =
    if String.prefix old s then Some 0%nat
    else match s with
         | EmptyString => None
         | String _ s' => S <$> strings_Index s' old
         end.
Proof. by destruct s. Qed.

Lemma prefix_occurs old s a b :
  String.prefix old s = false → occurs_at old s a b → a ≠ "".
Proof.
  intros Hp Hab ->. unfold occurs_at in Hab. simpl in Hab.
  assert (String.prefix old s = true) by (apply prefix_spec; eauto).
  congruence.
Qed.

(** [strings.Index] finds the leftmost occurrence. *)
Lemma strings_Index_Some s old j :
  strings_Index s old = Some j →
  ∃ pre post, occurs_at old s pre post ∧ String.length pre = j ∧
    ∀ a b, occurs_at old s a b → (j ≤ String.length a)%nat.
Proof.
  revert j. induction s as [|c s IH]; intros j;
    rewrite strings_Index_unfold;
    (destruct (String.prefix old _) eqn:Hp;
     [ intros [= <-]; apply prefix_spec in Hp as [b Hb];
       exists "", b; repeat split; [done | intros; simpl; lia] | ]).
  - done.
  - destruct (strings_Index s old) as [k|] eqn:Hk; [|done].
    intros [= <-].
    destruct (IH k eq_refl) as (pre & post & Hocc & Hlen & Hleft).
    exists (String c pre), post. unfold occurs_at in *. simpl.
    repeat split; [congruence | congruence |].
    intros a b Hab. destruct a as [|d a].
    + by destruct (prefix_occurs _ _ _ _ Hp Hab).
    + simpl in Hab. injection Hab as -> Hab.
      specialize (Hleft _ _ Hab). simpl. lia.
Qed.

Lemma strings_Index_None s old :
  strings_Index s old = None → ∀ a b, ¬ occurs_at old s a b.
Proof.
  induction s as [|c s IH]; rewrite strings_Index_unfold;
    (destruct (String.prefix old _) eqn:Hp; [done|]);
    intros Hk a b Hab; pose proof (prefix_occurs _ _ _ _ Hp Hab) as Ha;
    destruct a as [|d a]; try done; unfold occurs_at in Hab; simpl in Hab.
  destruct (strings_Index s old) eqn:Hk'; [done|].
  injection Hab as -> Hab. by eapply IH.
Qed.

(** [strings.Replace(s, old, new, 1)] leaves [s] alone when [old] does
    not occur in it, and otherwise replaces the leftmost occurrence of
    [old] and nothing else. *)
Lemma strings_Replace1_spec s old new :
  first_replaced old new s (strings_Replace1 s old new).
Proof.
  unfold first_replaced, strings_Replace1.
  destruct (strings_Index s old) as [j|] eqn:Hj.
  - right. destruct (strings_Index_Some _ _ _ Hj) as (pre & post & Hocc & <- & Hleft).
    exists pre, post. repeat split; [done..|].
    destruct (String.eqb_spec old new) as [<-|_]; [done|].
    unfold occurs_at in Hocc. subst s.
    by rewrite string_upto_app, string_from_app2.
  - left. split; [by apply strings_Index_None|]. by destruct (old =? new)%string.
Qed.

Lemma strings_Replace1_absent s old new :
  strings_Index s old = None → strings_Replace1 s old new = s.
Proof.
  unfold strings_Replace1. intros ->. by destruct (old =? new)%string.
Qed.
End Strings.

(** ** Formatter.Format *)

Section FormatProperties.
Context `{RT : Runtime}.

(** C4, as amended.  [Format] takes the line template through three
    successive replacements, for [{levelname}], [{message}] and
    [{asctime}] in that order.  Each step replaces the leftmost
    occurrence of its placeholder in the string the step before
    produced, and nothing else; a placeholder that does not occur
    leaves the string as it is.  The text inserted by a step is part
    of what the next step scans. *)
Theorem Format_successive_replacements (f : Formatter) (now : Time)
    (logRecord : LogRecord) :
  ∃ s1 s2,
    first_replaced "{levelname}" (LogLevel_String (r_level logRecord))
      (f_fmt f) s1 ∧
    first_replaced "{message}" (render_msg logRecord) s1 s2 ∧
    first_replaced "{asctime}" (Time_Format now (f_dateFmt f)) s2
      (Format_line f now logRecord).
Proof.
  unfold Format_line. eexists _, _.
  split; [|split]; apply strings_Replace1_spec.
Qed.

(** C5.  The formatter built from ["{levelname}: {message}"] and
    ["2006-01-02"] formats the record [(ERROR, "x", "failed: %s",
    "disk full")] as ["ERROR: failed: disk full"], whatever the clock
    reads, given that [Sprintf] puts the argument in place of [%s]. *)
Theorem Format_scenario (w : World) :
  fmt_Sprintf "failed: %s" [VString "disk full"] = "failed: disk full" →
  ∃ w', format_scenario w = Ret "ERROR: failed: disk full" w'.
Proof.
  intros Hsprintf. eexists.
  unfold format_scenario, NewFormatter, Formatter_Format, deref,
    time_Now_call, modify, get_world, mbind, mret, M_bind, M_ret.
  cbn [formatter_heap set_formatter_heap set_ticks].
  rewrite list_lookup_middle by done. f_equal.
  unfold Format_line, render_msg. cbn [r_args r_msg NewLogRecord r_level].
  rewrite Hsprintf. cbn [NewFormatter_value f_fmt f_dateFmt].
  by rewrite strings_Replace1_absent.
Qed.
End FormatProperties.

(** C4, as stated, fails.  With the line template
    ["{message} at {asctime}"] and the message ["{asctime}"], the third
    replacement hits the text the second one inserted: the code returns
    ["2026 at {asctime}"], a single non-recursive pass returns
    ["{asctime} at 2026"]. *)
Lemma Format_rescans_inserted_text :
  Format_line (RT := go_fragment)
    (mkFormatter "{message} at {asctime}" "2006")
    (mkTime 2026 10 31 12 0 0) (NewLogRecord INFO "x" "{asctime}" [])
  = "2026 at {asctime}" ∧
  Format_single_pass (RT := go_fragment)
    (mkFormatter "{message} at {asctime}" "2006")
    (mkTime 2026 10 31 12 0 0) (NewLogRecord INFO "x" "{asctime}" [])
  = "{asctime} at 2026" ∧
  Format_line (RT := go_fragment)
    (mkFormatter "{message} at {asctime}" "2006")
    (mkTime 2026 10 31 12 0 0) (NewLogRecord INFO "x" "{asctime}" [])
  ≠ Format_single_pass (RT := go_fragment)
      (mkFormatter "{message} at {asctime}" "2006")
      (mkTime 2026 10 31 12 0 0) (NewLogRecord INFO "x" "{asctime}" []).
Proof. vm_compute. by repeat split. Qed.

Lemma Format_scenario_witness :
  fmt_Sprintf (Runtime := go_fragment) "failed: %s" [VString "disk full"]
    = "failed: disk full" ∧
  ∃ w', format_scenario (RT := go_fragment) initial_world
        = Ret "ERROR: failed: disk full" w'.
Proof.
  split; [reflexivity | apply (Format_scenario (RT := go_fragment)); reflexivity].
Defined.

(** ** Relations every call maintains *)

Create HintDb keeps.

(** A relation between the world before and the world after is kept by
    every call of the package as soon as it is a preorder kept by each
    elementary update of the world; [run] then keeps it too.  The
    registry is only ever extended, at a name that is not bound yet. *)
Section Frames.
Context `{RT : Runtime}.
Variable P : World → World → Prop.
Hypothesis P_refl : ∀ w, P w w.
Hypothesis P_trans : ∀ w1 w2 w3, P w1 w2 → P w2 w3 → P w1 w3.
Hypothesis P_config : ∀ c w, P w (set_config c w).
Hypothesis P_logger_heap : ∀ h w, P w (set_logger_heap h w).
Hypothesis P_handler_heap : ∀ h w, P w (set_handler_heap h w).
Hypothesis P_formatter_heap : ∀ h w, P w (set_formatter_heap h w).
Hypothesis P_ticks : ∀ n w, P w (set_ticks n w).
Hypothesis P_events : ∀ e w, P w (set_events e w).
Hypothesis P_register : ∀ name logger w,
  loggers_items w !! name = None →
  P w (set_loggers_items (<[name := logger]> (loggers_items w)) w).

Local Abbreviation keeps := (keeps P).

Lemma keeps_ret {A} (a : A) : keeps (mret a).
Proof. intros w. apply P_refl. Qed.

Lemma keeps_panic {A} : keeps (@panic A).
Proof. intros w. apply P_refl. Qed.

Lemma keeps_exit {A} c : keeps (@os_Exit A c).
Proof. intros w. apply P_refl. Qed.

Lemma keeps_get : keeps get_world.
Proof. intros w. apply P_refl. Qed.

Lemma keeps_modify g : (∀ w, P w (g w)) → keeps (modify g).
Proof. intros Hg w. apply Hg. Qed.

Lemma keeps_bind {A B} (m : M A) (f : A → M B) :
  keeps m → (∀ a, keeps (f a)) → keeps (m ≫= f).
Proof.
  intros Hm Hf w. unfold mbind, M_bind. specialize (Hm w).
  destruct (m w) as [a w'| |]; simpl in *; [|done..].
  eapply P_trans; [done | apply Hf].
Qed.

Lemma keeps_time_Now : keeps time_Now_call.
Proof. intros w. apply P_ticks. Qed.

Local Hint Resolve keeps_ret keeps_panic keeps_exit keeps_get
  keeps_time_Now P_refl P_config P_logger_heap P_handler_heap
  P_formatter_heap P_ticks P_events : keeps.

(** Goes through the body of an operation. *)
Ltac keeps_step :=
  match goal with
  | |- keeps (mbind _ _) => apply keeps_bind; [|intros ?]
  | |- keeps (modify _) => apply keeps_modify; intros ?
  | |- keeps (match ?x with _ => _ end) => destruct x
  | |- keeps (let _ := _ in _) => cbv zeta
  | |- _ => solve [eauto with keeps]
  end.
Ltac keeps_body := repeat keeps_step.

Lemma keeps_deref {A} (heap : World → list A) p : keeps (deref heap p).
Proof. unfold deref. keeps_body. Qed.
Local Hint Resolve keeps_deref : keeps.

Lemma keeps_record_event e : keeps (record_event e).
Proof. unfold record_event. keeps_body. Qed.
Local Hint Resolve keeps_record_event : keeps.

Lemma keeps_NewFormatter params : keeps (NewFormatter params).
Proof. unfold NewFormatter. keeps_body. Qed.
Local Hint Resolve keeps_NewFormatter : keeps.

Lemma keeps_Formatter_Format f r : keeps (Formatter_Format f r).
Proof. unfold Formatter_Format. keeps_body. Qed.
Local Hint Resolve keeps_Formatter_Format : keeps.

Lemma keeps_alloc_handler hd : keeps (alloc_handler hd).
Proof. unfold alloc_handler. keeps_body. Qed.
Local Hint Resolve keeps_alloc_handler : keeps.

Lemma keeps_update_handler h g : keeps (update_handler h g).
Proof. unfold update_handler. keeps_body. Qed.
Local Hint Resolve keeps_update_handler : keeps.

Lemma keeps_NewLogHandler_value : keeps NewLogHandler_value.
Proof. unfold NewLogHandler_value. keeps_body. Qed.
Local Hint Resolve keeps_NewLogHandler_value : keeps.

Lemma keeps_NewStreamHandler_value stream :
  keeps (NewStreamHandler_value stream).
Proof. unfold NewStreamHandler_value. keeps_body. Qed.
Local Hint Resolve keeps_NewStreamHandler_value : keeps.

Lemma keeps_LogHandler_Format h r : keeps (LogHandler_Format h r).
Proof. unfold LogHandler_Format. keeps_body. Qed.
Local Hint Resolve keeps_LogHandler_Format : keeps.

Lemma keeps_fmt_Fprintln s line : keeps (fmt_Fprintln s line).
Proof. unfold fmt_Fprintln. keeps_body. Qed.
Local Hint Resolve keeps_fmt_Fprintln : keeps.

Lemma keeps_LogHandler_Emit h r : keeps (LogHandler_Emit h r).
Proof. unfold LogHandler_Emit. keeps_body. Qed.
Local Hint Resolve keeps_LogHandler_Emit : keeps.

Lemma keeps_ServiceHandler_Emit h r : keeps (ServiceHandler_Emit h r).
Proof. unfold ServiceHandler_Emit, logger_call. keeps_body. Qed.
Local Hint Resolve keeps_ServiceHandler_Emit : keeps.

Lemma keeps_ILogHandler_GetLevel h : keeps (ILogHandler_GetLevel h).
Proof. unfold ILogHandler_GetLevel, deref_handler. keeps_body. Qed.
Local Hint Resolve keeps_ILogHandler_GetLevel : keeps.

Lemma keeps_ILogHandler_Handle h r : keeps (ILogHandler_Handle h r).
Proof.
  unfold ILogHandler_Handle, deref_handler, ServiceHandler_Handle,
    LogHandler_Handle.
  keeps_body.
Qed.
Local Hint Resolve keeps_ILogHandler_Handle : keeps.

Lemma keeps_Log_range level r hs : keeps (Log_range level r hs).
Proof. induction hs as [|h hs IH]; simpl; keeps_body. Qed.
Local Hint Resolve keeps_Log_range : keeps.

Lemma keeps_update_logger l g : keeps (update_logger l g).
Proof. unfold update_logger. keeps_body. Qed.
Local Hint Resolve keeps_update_logger : keeps.

Lemma keeps_NewLogger name : keeps (NewLogger name).
Proof. unfold NewLogger. keeps_body. Qed.
Local Hint Resolve keeps_NewLogger : keeps.

Lemma keeps_GetLogger loggername : keeps (GetLogger loggername).
Proof.
  intros w. unfold GetLogger, NewLogger, modify, get_world, mbind, mret,
    M_bind, M_ret.
  destruct (loggers_items w !! _) eqn:Hl; simpl; [apply P_refl|].
  eapply P_trans; [apply P_logger_heap|].
  apply (P_register _ _ (set_logger_heap _ w)). exact Hl.
Qed.
Local Hint Resolve keeps_GetLogger : keeps.

Lemma keeps_BasicConfig conf : keeps (BasicConfig conf).
Proof.
  induction conf as [|[k v] conf IH]; simpl; [eauto with keeps|].
  apply keeps_bind; [|done].
  unfold BasicConfig_entry, assert_string, assert_Writer. keeps_body.
Qed.
Local Hint Resolve keeps_BasicConfig : keeps.

Lemma keeps_exec c : keeps (exec c).
Proof.
  destruct c; unfold exec, discard, Logger_GetName, Logger_SetLevel,
    Logger_AddHandler, Logger_Log, NewLogHandler, NewStreamHandler,
    NewFileHandler, NewServiceHandler, LogHandler_SetLevel,
    LogHandler_SetFormatter; keeps_body.
Qed.

Lemma keeps_run cs w : P w (run cs w).
Proof.
  revert w. induction cs as [|c cs IH]; intros w; simpl; [done|].
  pose proof (keeps_exec c w) as Hc.
  destruct (exec c w); simpl in Hc; [| |done];
    (eapply P_trans; [exact Hc | apply IH]).
Qed.
End Frames.

(** ** The registry *)

Section Registry.
Context `{RT : Runtime}.

Lemma GetLogger_bound (w : World) (x : string) (logger : nat) :
  loggers_items w !! x = Some logger → GetLogger [x] w = Ret logger w.
Proof.
  intros Hx. unfold GetLogger, get_world, mbind, mret, M_bind, M_ret.
  by rewrite Hx.
Qed.

(** No call unbinds or rebinds a name of the registry. *)
Lemma registry_grows (cs : list Call) (w : World) (name : string) (p : nat) :
  loggers_items w !! name = Some p →
  loggers_items (run cs w) !! name = Some p.
Proof.
  revert name p.
  apply (keeps_run (λ w w', ∀ name p, loggers_items w !! name = Some p →
                                      loggers_items w' !! name = Some p));
    try done.
  - naive_solver.
  - intros name logger w' Hfresh name' p' Hp'. simpl.
    rewrite lookup_insert_ne; [done | congruence].
Qed.

(** C3, as amended.  [GetLogger(x)] returns a logger, and from then
    on, whatever calls the program makes in between, every
    [GetLogger(x)] returns that same logger and changes nothing (with
    no call in between: calling twice gives the identical instance).
    The call allocates a logger only when [x] is not bound yet, so the
    registry makes at most one logger for a name.  [GetLogger()] is
    [GetLogger("root")]; a name bound in the registry stays bound to
    the same logger through every call. *)
Theorem GetLogger_one_instance_per_name (w : World) (x : string) :
  (∃ logger w1,
     GetLogger [x] w = Ret logger w1 ∧
     (∀ cs, GetLogger [x] (run cs w1) = Ret logger (run cs w1)) ∧
     (is_Some (loggers_items w !! x) → w1 = w) ∧
     (loggers_items w !! x = None →
      logger = length (logger_heap w) ∧
      logger_heap w1 = logger_heap w ++ [mkLogger 0 x []])) ∧
  GetLogger [] w = GetLogger ["root"] w ∧
  (∀ cs name p, loggers_items w !! name = Some p →
                loggers_items (run cs w) !! name = Some p).
Proof.
  split; [|split; [done | intros; by apply registry_grows]].
  destruct (loggers_items w !! x) as [p|] eqn:Hx.
  - exists p, w. split; [by apply GetLogger_bound|].
    split; [|done]. intros cs. by apply GetLogger_bound, registry_grows.
  - eexists _, _. split.
    + unfold GetLogger, NewLogger, modify, get_world, mbind, mret,
        M_bind, M_ret. rewrite Hx. reflexivity.
    + split; [|split; [by intros [? ?] | done]].
      intros cs. apply GetLogger_bound, registry_grows. simpl.
      apply lookup_insert_eq.
Qed.
End Registry.

(** C3, as stated, fails: more than one logger of a name can exist.
    After [NewLogger("x")], [GetLogger("x")], [NewLogger("x")] there
    are three loggers named ["x"]; the registry holds the second. *)
Lemma NewLogger_repeats_a_name :
  logger_heap same_name_demo_world
  = [mkLogger 0 "x" []; mkLogger 0 "x" []; mkLogger 0 "x" []] ∧
  loggers_items same_name_demo_world !! "x" = Some 1%nat.
Proof. vm_compute. by split. Qed.

(** ** ServiceHandler *)

Section Service.
Context `{RT : Runtime}.

(** No call assigns the package variable [logger]. *)
Lemma servicehandler_logger_run (cs : list Call) (w : World) :
  servicehandler_logger (run cs w) = servicehandler_logger w.
Proof.
  symmetry. revert cs w.
  refine (keeps_run (λ w w', servicehandler_logger w
                             = servicehandler_logger w') _ _ _ _ _ _ _ _ _);
    try done.
  intros ??? -> ->. done.
Qed.

(** While [logger] is nil, [Emit] panics and nothing reaches a
    service logger. *)
Lemma ServiceHandler_Emit_nil_logger (w : World) (h : nat) (r : LogRecord) :
  servicehandler_logger w = None →
  is_Panic (ServiceHandler_Emit h r w) = true ∧
  events (world_of (ServiceHandler_Emit h r w)) = events w.
Proof.
  intros Hnil.
  unfold ServiceHandler_Emit, logger_call, LogHandler_Format,
    Formatter_Format, time_Now_call, deref, get_world, panic, mbind, mret,
    M_bind, M_ret.
  destruct (handler_heap w !! h) as [hd|]; simpl; [|done].
  destruct (h_formatter (hd_base hd)) as [f|]; simpl; [|done].
  destruct (formatter_heap w !! f); simpl; [|done].
  by rewrite Hnil.
Qed.

(** C8 on the code.  The package variable [logger] of [servicehandler]
    is declared and never assigned, so it is nil in every state a
    program can reach: [ServiceHandler.Emit] panics at the call of the
    operation the [switch] selected, and no operation of a service
    logger receives the string. *)
Theorem ServiceHandler_Emit_panics (cs : list Call) (h : nat)
    (logRecord : LogRecord) :
  let w := run cs initial_world in
  is_Panic (ServiceHandler_Emit h logRecord w) = true ∧
  events (world_of (ServiceHandler_Emit h logRecord w)) = events w.
Proof.
  intros w. apply ServiceHandler_Emit_nil_logger.
  unfold w. by rewrite servicehandler_logger_run.
Qed.

(** The first thing a program can do with a service handler. *)
Example ServiceHandler_Emit_at_start :
  let prog :=
    h ← NewServiceHandler (Some 0%nat);
    ServiceHandler_Emit h (NewLogRecord WARNING "x" "m" []) in
  is_Panic (prog initial_world) = true ∧
  events (world_of (prog initial_world)) = [].
Proof. done. Qed.

(** The [switch] itself is as C8 describes it: were [logger] bound to
    a service logger, [Emit] would pass the formatted line to exactly
    one operation, chosen by the level of the record. *)
Lemma ServiceHandler_Emit_bound (w : World) (h : nat) (r : LogRecord)
    (hd : Handler) (f : nat) (fm : Formatter) (lg : nat) :
  servicehandler_logger w = Some lg →
  handler_heap w !! h = Some hd →
  h_formatter (hd_base hd) = Some f →
  formatter_heap w !! f = Some fm →
  ServiceHandler_Emit h r w =
    Ret () (set_events
              (events w ++ [EvService lg (service_op (r_level r))
                              (Format_line fm (time_Now (ticks w)) r)])
              (set_ticks (S (ticks w)) w)).
Proof.
  intros Hlg Hh Hf Hfm.
  unfold ServiceHandler_Emit, logger_call, LogHandler_Format,
    Formatter_Format, time_Now_call, deref, get_world, panic, record_event,
    modify, mbind, mret, M_bind, M_ret.
  rewrite Hh; simpl. rewrite Hf; simpl. rewrite Hfm; simpl.
  by rewrite Hlg.
Qed.

Lemma service_op_spec (level : LogLevel) :
  service_op WARNING = OpWarning ∧ service_op ERROR = OpError ∧
  (level ≠ WARNING → level ≠ ERROR → service_op level = OpInfo).
Proof.
  repeat split. unfold service_op, WARNING, ERROR. intros H1 H2.
  destruct (Z.eqb_spec level 2); [done|].
  by destruct (Z.eqb_spec level 3).
Qed.
End Service.

(** ** LogHandler.Handle *)

Section Handle.
Context `{RT : Runtime}.

Lemma bind_unfold {A B} (m : M A) (f : A → M B) (w : World) :
  (m ≫= f) w = match m w with
               | Ret a w' => f a w'
               | Panic w' => Panic w'
               | Exit c w' => Exit c w'
               end.
Proof. reflexivity. Qed.

(** C9.  [Handle] is [Emit], entered without any test: the call
    behaves as [Emit] does, it does so whatever level the handler has,
    and on a handler whose formatter and sink are in place it writes
    the formatted line, also for a record below the handler's
    level. *)
Theorem LogHandler_Handle_emits (w : World) (h : nat)
    (logRecord : LogRecord) (hd : Handler) :
  handler_heap w !! h = Some hd →
  LogHandler_Handle h logRecord w
    = LogHandler_Emit h logRecord
        (set_events (events w ++ [EvHandle h logRecord]) w) ∧
  (∀ level,
     rmap (set_handler_heap (handler_heap w))
       (LogHandler_Handle h logRecord
          (set_handler_heap
             (<[h := map_base (with_level level) hd]> (handler_heap w)) w))
     = LogHandler_Handle h logRecord w) ∧
  (∀ f fm wr,
     h_formatter (hd_base hd) = Some f →
     formatter_heap w !! f = Some fm →
     h_logger (hd_base hd) = Some wr →
     wr ≠ NilFile →
     LogHandler_Handle h logRecord w
     = Ret () (touch 1 [EvHandle h logRecord;
                        EvWrite wr (Format_line fm (time_Now (ticks w))
                                      logRecord +:+ newline)] w)).
Proof.
  intros Hh. split; [reflexivity|]. split.
  - intros level.
    unfold LogHandler_Handle, LogHandler_Emit, LogHandler_Format,
      Formatter_Format, fmt_Fprintln, time_Now_call, deref, get_world,
      panic, record_event, modify, mbind, mret, M_bind, M_ret.
    repeat (simpl;
            first [ rewrite list_lookup_insert_eq by (by eapply lookup_lt_Some)
                  | rewrite Hh ]).
    destruct (h_formatter (hd_base hd)) as [f|]; simpl; [|done].
    destruct (formatter_heap w !! f); simpl; [|done].
    by destruct (h_logger (hd_base hd)) as [[]|].
  - intros f fm wr Hf Hfm Hwr Hnil.
    unfold LogHandler_Handle, LogHandler_Emit, LogHandler_Format,
      Formatter_Format, fmt_Fprintln, time_Now_call, deref, get_world,
      panic, record_event, modify, mbind, mret, M_bind, M_ret.
    repeat (simpl; first [rewrite Hh | rewrite Hf | rewrite Hfm | rewrite Hwr]).
    destruct wr; try done; unfold touch; simpl; by rewrite <-app_assoc.
Qed.
End Handle.


Lemma LogHandler_Handle_emits_witness :
  let logRecord := NewLogRecord INFO "app" "below the threshold" [] in
  LogHandler_Handle (RT := go_fragment) 0 logRecord handle_demo_world
  = Ret () (touch 1 [EvHandle 0 logRecord;
                     EvWrite (Buffer 7)
                       ("INFO: below the threshold" +:+ newline)]
              handle_demo_world).
Proof.
  intros logRecord.
  exact (proj2 (proj2 (LogHandler_Handle_emits (RT := go_fragment)
                         handle_demo_world 0 logRecord _ eq_refl))
           0%nat _ (Buffer 7) eq_refl eq_refl eq_refl ltac:(discriminate)).
Defined.

(** ** Logger.Log *)

Section Dispatch.
Context `{RT : Runtime}.

Lemma touch_0 (w : World) : touch 0 [] w = w.
Proof. destruct w. unfold touch. simpl. by rewrite app_nil_r. Qed.

Lemma touch_touch n1 e1 n2 e2 (w : World) :
  touch n2 e2 (touch n1 e1 w) = touch (n1 + n2) (e1 ++ e2) w.
Proof.
  unfold touch. simpl. rewrite <-app_assoc.
  by replace (n2 + (n1 + ticks w))%nat with (n1 + n2 + ticks w)%nat by lia.
Qed.

Lemma handle_calls_app (e1 e2 : list Event) :
  handle_calls (e1 ++ e2) = handle_calls e1 ++ handle_calls e2.
Proof. apply omap_app. Qed.

Lemma ILogHandler_GetLevel_unfold (handler : ILogHandler) (w : World) :
  ILogHandler_GetLevel handler w
  = match handler ≫= (handler_heap w !!.) with
    | Some hd => Ret (h_level (hd_base hd)) w
    | None => Panic w
    end.
Proof.
  unfold ILogHandler_GetLevel, deref_handler, deref, get_world, panic,
    mbind, mret, M_bind, M_ret.
  destruct handler as [p|]; simpl; [|done].
  unfold option_bind. by destruct (handler_heap w !! p).
Qed.

Ltac unfold_Handle :=
  unfold ILogHandler_Handle, ServiceHandler_Handle, ServiceHandler_Emit,
    logger_call, LogHandler_Handle, LogHandler_Emit, LogHandler_Format,
    Formatter_Format, fmt_Fprintln, time_Now_call, deref_handler, deref,
    get_world, panic, record_event, modify, mbind, mret, M_bind, M_ret.

(** Entering [Handle] through the interface leaves one entry event,
    possibly followed by what [Emit] did; it never ends the process
    and touches nothing but the clock and the events. *)
Lemma ILogHandler_Handle_effect (w : World) (p : nat) (hd : Handler)
    (r : LogRecord) :
  handler_heap w !! p = Some hd →
  ∃ n evs,
    world_of (ILogHandler_Handle (Some p) r w)
      = touch n (EvHandle p r :: evs) w ∧
    handle_calls evs = [] ∧
    is_Exit (ILogHandler_Handle (Some p) r w) = false.
Proof.
  intros Hp. unfold_Handle.
  repeat (progress (simpl; rewrite ?Hp)).
  repeat (case_match; simplify_eq/=; repeat (progress (simpl; rewrite ?Hp)));
    first [ by exists 0%nat, []
          | by exists 1%nat, []
          | eexists 1%nat, [_]; unfold touch; simpl; rewrite <-app_assoc;
            split; [reflexivity | done] ].
Qed.


Lemma gated_cons (w : World) level handler hs :
  gated w level (handler :: hs)
  = match passes w level handler with
    | Some p => p :: gated w level hs
    | None => gated w level hs
    end.
Proof. reflexivity. Qed.

Lemma gated_touch n evs (w : World) level hs :
  gated (touch n evs w) level hs = gated w level hs.
Proof. reflexivity. Qed.

(** The loop of [Log]: the handlers entered are, in order, those of
    the list that pass their gate, up to a handler that panics. *)
Lemma Log_range_effect (level : LogLevel) (r : LogRecord)
    (hs : list ILogHandler) (w : World) :
  ∃ n evs,
    world_of (Log_range level r hs w) = touch n evs w ∧
    is_Exit (Log_range level r hs w) = false ∧
    handle_calls evs `prefix_of` ((., r) <$> gated w level hs) ∧
    (is_Panic (Log_range level r hs w) = false →
     handle_calls evs = (., r) <$> gated w level hs).
Proof.
  revert w. induction hs as [|handler hs IH]; intros w.
  { exists 0%nat, []. by rewrite touch_0. }
  cbn [Log_range]. rewrite bind_unfold, ILogHandler_GetLevel_unfold, gated_cons.
  unfold passes.
  destruct handler as [p|]; simpl;
    [|exists 0%nat, []; rewrite touch_0; repeat split; [apply prefix_nil | done]].
  destruct (handler_heap w !! p) as [hd|] eqn:Hp; simpl;
    [|exists 0%nat, []; rewrite touch_0; repeat split; [apply prefix_nil | done]].
  rewrite bind_unfold.
  destruct (level >=? h_level (hd_base hd)); simpl.
  - destruct (ILogHandler_Handle_effect w p hd r Hp) as (n1 & e1 & Hw & Hq & Hx).
    destruct (ILogHandler_Handle (Some p) r w) as [[] w1|w1|c w1];
      simpl in Hw, Hx; [|subst w1|done].
    + subst w1.
      destruct (IH (touch n1 (EvHandle p r :: e1) w))
        as (n2 & e2 & Hw2 & Hx2 & Hpre & Heq).
      exists (n1 + n2)%nat, ((EvHandle p r :: e1) ++ e2).
      rewrite Hw2, touch_touch. split; [done|]. split; [done|].
      rewrite handle_calls_app. simpl. rewrite Hq. simpl.
      rewrite gated_touch in Hpre, Heq.
      split; [by apply prefix_cons | intros Hnp; f_equal; auto].
    + exists n1, (EvHandle p r :: e1). simpl. rewrite Hq.
      repeat split; [|done]. apply prefix_cons, prefix_nil.
  - apply IH.
Qed.

End Dispatch.

Section Log.
Context `{RT : Runtime}.

Lemma Logger_Log_unfold (w : World) (l : nat) (lg : Logger)
    (level : LogLevel) (msg : string) (args : list value) :
  logger_heap w !! l = Some lg →
  Logger_Log l level msg args w
  = match Log_range level (NewLogRecord level (l_name lg) msg args)
            (l_handlers lg) w with
    | Ret _ w' => if level =? FATAL then Exit 1 w' else Ret () w'
    | Panic w' => Panic w'
    | Exit c w' => Exit c w'
    end.
Proof.
  intros Hl. unfold Logger_Log. rewrite bind_unfold.
  unfold deref at 1. rewrite bind_unfold. simpl. rewrite Hl. simpl.
  rewrite bind_unfold. destruct (Log_range _ _ _ w); [|done..].
  by destruct (level =? FATAL).
Qed.

Lemma Logger_AddHandler_unfold (w : World) (l : nat) (lg : Logger)
    (handler : ILogHandler) :
  logger_heap w !! l = Some lg →
  Logger_AddHandler l handler w
  = Ret () (set_logger_heap
              (<[l := with_l_handlers (l_handlers lg ++ [handler]) lg]>
                 (logger_heap w)) w).
Proof.
  intros Hl. unfold Logger_AddHandler, update_logger, deref, get_world,
    modify, mbind, mret, M_bind, M_ret.
  simpl. by rewrite Hl.
Qed.

Lemma elem_of_gated (w : World) (level : LogLevel) (hs : list ILogHandler)
    (p : nat) (hd : Handler) :
  handler_heap w !! p = Some hd →
  p ∈ gated w level hs ↔ Some p ∈ hs ∧ h_level (hd_base hd) ≤ level.
Proof.
  intros Hp. unfold gated. rewrite list_elem_of_omap. split.
  - intros (handler & Hin & Hpass). unfold passes in Hpass.
    destruct handler as [q|]; simpl in Hpass; [|done].
    destruct (handler_heap w !! q) as [hd'|] eqn:Hq; simpl in Hpass; [|done].
    destruct (level >=? h_level (hd_base hd')) eqn:Hge; [|done].
    injection Hpass as ->. rewrite Hp in Hq. injection Hq as <-.
    split; [done | by apply Z.geb_le].
  - intros [Hin Hle]. exists (Some p). split; [done|].
    unfold passes. simpl. rewrite Hp. simpl.
    by apply Z.geb_le in Hle as ->.
Qed.


End Log.






(** ** Handler construction and the global configuration *)

Section Config.
Context `{RT : Runtime}.

Lemma NewLogHandler_value_unfold (w : World) :
  NewLogHandler_value w
  = Ret (mkLogHandler (c_level (config w))
           (Some (length (formatter_heap w))) None)
        (set_formatter_heap
           (formatter_heap w
            ++ [mkFormatter (c_format (config w)) (c_datefmt (config w))]) w).
Proof. reflexivity. Qed.

(** Allocating a handler whose base is the one [NewLogHandler] makes,
    up to its sink, takes the snapshot. *)
Lemma alloc_takes_snapshot (w : World) (kind : HandlerKind)
    (sink : io_Writer) (m : M nat) :
  m w = (lh ← NewLogHandler_value;
         alloc_handler (mkHandler kind (with_logger sink lh))) w →
  takes_snapshot m w.
Proof.
  intros Hm. unfold takes_snapshot.
  rewrite Hm, bind_unfold, NewLogHandler_value_unfold.
  eexists (length (handler_heap w)), _, _, (length (formatter_heap w)).
  split; [reflexivity|]. simpl.
  split; [by apply lookup_ge_None_2|].
  split; [by apply list_lookup_middle|].
  split; [done|]. split; [done|].
  split; [by apply lookup_ge_None_2 | by apply list_lookup_middle].
Qed.

(** [BasicConfig] writes the configuration and nothing else, also
    when it panics half-way. *)
Lemma BasicConfig_frame (conf : list (string * value)) (w : World) :
  let w' := world_of (BasicConfig conf w) in w' = set_config (config w') w.
Proof.
  revert conf w.
  refine (keeps_BasicConfig (λ w w', w' = set_config (config w') w) _ _ _).
  - by intros [].
  - intros w1 w2 w3 -> ->. done.
  - done.
Qed.

(** C6.  [NewLogHandler], [NewStreamHandler], [NewFileHandler] and
    [NewServiceHandler] each return a new handler whose level is the
    level of the configuration at the time of the call and whose
    formatter is allocated by the call from the format and date format
    of that configuration; a [BasicConfig] call, whatever its
    argument, leaves every handler and every formatter as it was. *)
Theorem handlers_snapshot_config (w : World) :
  takes_snapshot NewLogHandler w ∧
  (∀ stream, takes_snapshot (NewStreamHandler stream) w) ∧
  (∀ filename mode, takes_snapshot (NewFileHandler filename mode) w) ∧
  (∀ service, takes_snapshot (NewServiceHandler service) w) ∧
  (∀ conf,
     handler_heap (world_of (BasicConfig conf w)) = handler_heap w ∧
     formatter_heap (world_of (BasicConfig conf w)) = formatter_heap w).
Proof.
  repeat split.
  - by apply (alloc_takes_snapshot w IsLogHandler None).
  - intros stream.
    by apply (alloc_takes_snapshot w IsStreamHandler
                match stream with s0 :: _ => s0 | [] => Some Stderr end).
  - intros filename mode.
    by apply (alloc_takes_snapshot w (IsFileHandler filename mode)
                (Some (if os_OpenFile filename then File filename
                       else NilFile))).
  - intros service.
    by apply (alloc_takes_snapshot w (IsServiceHandler service) None).
  - by rewrite (BasicConfig_frame conf w).
  - by rewrite (BasicConfig_frame conf w).
Qed.

Lemma BasicConfig_entry_spec (k : string) (v : value) (w : World) :
  if entry_ok (k, v) then ∃ w', BasicConfig_entry k v w = Ret () w'
  else BasicConfig_entry k v w = Panic w.
Proof.
  unfold entry_ok, BasicConfig_entry, assert_string, assert_Writer. simpl.
  destruct (strings_ToLower k =? "filename")%string; simpl;
    [destruct v; by eauto|].
  destruct (strings_ToLower k =? "filemode")%string; simpl;
    [destruct v; by eauto|].
  destruct (strings_ToLower k =? "format")%string; simpl;
    [destruct v; by eauto|].
  destruct (strings_ToLower k =? "datefmt")%string; simpl;
    [destruct v; by eauto|].
  destruct (strings_ToLower k =? "stream")%string; simpl;
    [destruct v; by eauto|].
  by eauto.
Qed.

Lemma BasicConfig_spec (conf : list (string * value)) (w : World) :
  if forallb entry_ok conf then ∃ w', BasicConfig conf w = Ret () w'
  else is_Panic (BasicConfig conf w) = true.
Proof.
  revert w. induction conf as [|[k v] conf IH]; intros w; simpl; [by eauto|].
  rewrite bind_unfold. pose proof (BasicConfig_entry_spec k v w) as Hkv.
  destruct (entry_ok (k, v)); simpl.
  - destruct Hkv as [w' ->]. apply IH.
  - by rewrite Hkv.
Qed.

(** C10.  [BasicConfig] panics, leaving the configuration as it was,
    on a map that binds ["filename"] to an integer, and on one that
    binds ["stream"] to a string; in general it returns exactly when
    every entry whose lower-cased key is one of [filename], [filemode],
    [format], [datefmt] carries a string and every entry whose
    lower-cased key is [stream] carries a writer, and it panics
    otherwise. *)
Theorem BasicConfig_panics_on_wrong_type (w : World) :
  strings_ToLower "filename" = "filename" →
  strings_ToLower "stream" = "stream" →
  BasicConfig [("filename", VInt 5)] w = Panic w ∧
  BasicConfig [("stream", VString "out.log")] w = Panic w ∧
  (∀ conf, (∃ w', BasicConfig conf w = Ret () w')
           ↔ forallb entry_ok conf = true) ∧
  (∀ conf, is_Panic (BasicConfig conf w) = negb (forallb entry_ok conf)).
Proof.
  intros Hfilename Hstream.
  assert (∀ conf, is_Panic (BasicConfig conf w)
                  = negb (forallb entry_ok conf)) as Hpanic.
  { intros conf. pose proof (BasicConfig_spec conf w) as Hconf.
    destruct (forallb entry_ok conf); simpl; [|done].
    by destruct Hconf as [w' ->]. }
  split; [|split; [|split; [|done]]].
  - pose proof (BasicConfig_entry_spec "filename" (VInt 5) w) as Hkv.
    unfold entry_ok in Hkv. simpl in Hkv. rewrite Hfilename in Hkv.
    cbn [BasicConfig]. by rewrite bind_unfold, Hkv.
  - pose proof (BasicConfig_entry_spec "stream" (VString "out.log") w) as Hkv.
    unfold entry_ok in Hkv. simpl in Hkv. rewrite Hstream in Hkv.
    cbn [BasicConfig]. by rewrite bind_unfold, Hkv.
  - intros conf. specialize (Hpanic conf).
    pose proof (BasicConfig_spec conf w) as Hconf.
    destruct (forallb entry_ok conf); [done|].
    split; [|done]. intros [w' Hw']. by rewrite Hw' in Hpanic.
Qed.
End Config.

Lemma BasicConfig_panics_on_wrong_type_witness :
  BasicConfig (RT := go_fragment) [("filename", VInt 5)] initial_world
  = Panic initial_world ∧
  BasicConfig (RT := go_fragment) [("stream", VString "out.log")] initial_world
  = Panic initial_world.
Proof.
  destruct (BasicConfig_panics_on_wrong_type (RT := go_fragment) initial_world
              eq_refl eq_refl) as (H1 & H2 & _).
  exact (conj H1 H2).
Defined.

(** A handler built before a [BasicConfig] call keeps the format it was
    built with; one built after the call has the new format. *)
Example BasicConfig_reaches_later_handlers :
  formatter_heap
    (world_of
       ((NewStreamHandler [Some (Buffer 1)];;
         BasicConfig (RT := go_fragment) [("FORMAT", VString "{message}")];;
         NewStreamHandler [Some (Buffer 2)])
          initial_world))
  = [mkFormatter "{levelname}: {asctime} - {message}" "2006-01-02 15:04:05";
     mkFormatter "{message}" "2006-01-02 15:04:05"].
Proof. reflexivity. Qed.

(** ** Log and the level of the logger *)

Section LoggerLevel.
Context `{RT : Runtime}.

Lemma ignores_bind {A B} (m : M A) (f : A → M B) :
  ignores_loggers m → (∀ a, ignores_loggers (f a)) →
  ignores_loggers (m ≫= f).
Proof.
  intros Hm Hf heap w. rewrite !bind_unfold, Hm.
  destruct (m w); simpl; [apply Hf | done..].
Qed.

Lemma ignores_GetLevel (handler : ILogHandler) :
  ignores_loggers (ILogHandler_GetLevel handler).
Proof.
  intros heap w. rewrite !ILogHandler_GetLevel_unfold. simpl.
  by destruct (handler ≫= _).
Qed.

Lemma ignores_Handle (handler : ILogHandler) (r : LogRecord) :
  ignores_loggers (ILogHandler_Handle handler r).
Proof.
  intros heap w.
  unfold ILogHandler_Handle, ServiceHandler_Handle, ServiceHandler_Emit,
    logger_call, LogHandler_Handle, LogHandler_Emit, LogHandler_Format,
    Formatter_Format, fmt_Fprintln, time_Now_call, deref_handler, deref,
    get_world, panic, record_event, modify, mbind, mret, M_bind, M_ret.
  simpl. repeat (case_match; simplify_eq/=); done.
Qed.

Lemma ignores_Log_range (level : LogLevel) (r : LogRecord)
    (hs : list ILogHandler) :
  ignores_loggers (Log_range level r hs).
Proof.
  induction hs as [|handler hs IH]; [done|]. cbn [Log_range].
  apply ignores_bind; [apply ignores_GetLevel|]. intros hl.
  apply ignores_bind; [|done].
  destruct (level >=? hl); [apply ignores_Handle | done].
Qed.

Lemma Logger_SetLevel_unfold (w : World) (l : nat) (lg : Logger)
    (level : LogLevel) :
  logger_heap w !! l = Some lg →
  Logger_SetLevel l level w
  = Ret () (set_logger_heap
              (<[l := with_l_level level lg]> (logger_heap w)) w).
Proof.
  intros Hl. unfold Logger_SetLevel, update_logger, deref, get_world,
    modify, mbind, mret, M_bind, M_ret.
  simpl. by rewrite Hl.
Qed.

(** [Log] on a logger whose level has just been set: the level set
    does not show in the outcome. *)
Lemma Logger_Log_after_SetLevel (w : World) (l : nat) (lg : Logger)
    (lv level : LogLevel) (msg : string) (args : list value) :
  logger_heap w !! l = Some lg →
  Logger_Log l level msg args
    (set_logger_heap (<[l := with_l_level lv lg]> (logger_heap w)) w)
  = rmap (set_logger_heap (<[l := with_l_level lv lg]> (logger_heap w)))
      (Logger_Log l level msg args w).
Proof.
  intros Hl.
  rewrite (Logger_Log_unfold _ l (with_l_level lv lg))
    by (simpl; apply list_lookup_insert_eq; by eapply lookup_lt_Some).
  rewrite (Logger_Log_unfold _ l lg) by done.
  simpl. rewrite ignores_Log_range.
  destruct (Log_range _ _ _ w); simpl; [|done..].
  by destruct (level =? FATAL).
Qed.

(** C7.  Set the level of a logger to [lv1] in one run and to [lv2]
    in another: [Log] then has the same outcome in both, enters the
    same handlers, leaves the same events, and the two final worlds
    differ in nothing but the level fields of loggers. *)
Theorem Log_ignores_logger_level (w : World) (l : nat) (lg : Logger)
    (lv1 lv2 level : LogLevel) (msg : string) (args : list value) :
  logger_heap w !! l = Some lg →
  ∃ w1 w2,
    Logger_SetLevel l lv1 w = Ret () w1 ∧
    Logger_SetLevel l lv2 w = Ret () w2 ∧
    rmap forget_logger_levels (Logger_Log l level msg args w1)
    = rmap forget_logger_levels (Logger_Log l level msg args w2) ∧
    events (world_of (Logger_Log l level msg args w1))
    = events (world_of (Logger_Log l level msg args w2)).
Proof.
  intros Hl. eexists _, _.
  split; [by apply Logger_SetLevel_unfold|].
  split; [by apply Logger_SetLevel_unfold|].
  rewrite !Logger_Log_after_SetLevel by done.
  destruct (Logger_Log l level msg args w) as [[] w'|w'|c w']; simpl;
    (split; [|done]); f_equal;
    unfold forget_logger_levels; simpl; by rewrite !list_fmap_insert.
Qed.
End LoggerLevel.

Lemma Log_ignores_logger_level_witness :
  ∃ w1 w2,
    Logger_SetLevel 0 DEBUG dispatch_demo_world = Ret () w1 ∧
    Logger_SetLevel 0 FATAL dispatch_demo_world = Ret () w2 ∧
    rmap forget_logger_levels
      (Logger_Log (RT := go_fragment) 0 INFO "hello" [] w1)
    = rmap forget_logger_levels
        (Logger_Log (RT := go_fragment) 0 INFO "hello" [] w2) ∧
    events (world_of (Logger_Log (RT := go_fragment) 0 INFO "hello" [] w1))
    = events (world_of (Logger_Log (RT := go_fragment) 0 INFO "hello" [] w2)).
Proof.
  exact (Log_ignores_logger_level (RT := go_fragment) dispatch_demo_world 0 _
           DEBUG FATAL INFO "hello" [] eq_refl).
Defined.

(** * Further properties *)

(** ** Level names and formatting *)

Section FormatMore.
Context `{RT : Runtime}.

Lemma LogLevel_String_cases (l : LogLevel) :
  (l = 0 ∧ LogLevel_String l = "DEBUG") ∨
  (l = 1 ∧ LogLevel_String l = "INFO") ∨
  (l = 2 ∧ LogLevel_String l = "WARNING") ∨
  (l = 3 ∧ LogLevel_String l = "ERROR") ∨
  (l = 4 ∧ LogLevel_String l = "CRITICAL") ∨
  (l = 5 ∧ LogLevel_String l = "FATAL") ∨
  (unknown_level l ∧ LogLevel_String l = "UNKNOWN").
Proof.
  unfold LogLevel_String, unknown_level, DEBUG, INFO, WARNING, ERROR,
    CRITICAL, FATAL.
  repeat match goal with
         | |- context [l =? ?b] =>
             destruct (Z.eqb_spec l b) as [->|?];
             [repeat (first [by left | right]); done|]
         end.
  do 6 right. split; [lia | done].
Qed.

(** X1.  [String] gives ["UNKNOWN"] exactly for the integers outside
    the six levels, and two levels with the same name are the same level
    unless both are outside. *)
Theorem LogLevel_String_names (l l' : LogLevel) :
  (LogLevel_String l = "UNKNOWN" ↔ unknown_level l) ∧
  (LogLevel_String l = LogLevel_String l' →
   l = l' ∨ (unknown_level l ∧ unknown_level l')).
Proof.
  unfold unknown_level.
  destruct (LogLevel_String_cases l)
    as [[-> ->]|[[-> ->]|[[-> ->]|[[-> ->]|[[-> ->]|[[-> ->]|[Hl ->]]]]]]];
  destruct (LogLevel_String_cases l')
    as [[-> ->]|[[-> ->]|[[-> ->]|[[-> ->]|[[-> ->]|[[-> ->]|[Hl' ->]]]]]]];
  unfold unknown_level in *;
  (split; [split; [try done; intros; lia | try done; intros; lia]
          | try done; intros; auto]).
Qed.

Lemma append_nil_r (s : string) : s +:+ "" = s.
Proof. induction s; [done|]. unfold String.app in *. simpl. by f_equal. Qed.

Lemma strings_Replace1_at (s old new : string) (j : nat) :
  strings_Index s old = Some j →
  strings_Replace1 s old new
  = string_upto j s +:+ new +:+ string_from (j + String.length old) s.
Proof.
  intros Hj. unfold strings_Replace1. rewrite Hj.
  destruct (String.eqb_spec old new) as [<-|_]; [|done].
  destruct (strings_Index_Some _ _ _ Hj) as (pre & post & Hocc & <- & _).
  unfold occurs_at in Hocc. subst s.
  by rewrite string_upto_app, string_from_app2.
Qed.

Lemma strings_Index_absent (s old : string) :
  (∀ a b, ¬ occurs_at old s a b) → strings_Index s old = None.
Proof.
  intros Hno. destruct (strings_Index s old) as [j|] eqn:Hj; [|done].
  destruct (strings_Index_Some _ _ _ Hj) as (pre & post & Hocc & _).
  by destruct (Hno pre post).
Qed.

(** X2.  A line template in which none of the three placeholders occurs
    is returned as it is, for every record and every clock reading; in
    particular a formatter built by [NewFormatter()] with no parameter
    formats every record as the empty string. *)
Theorem Format_without_placeholders (f : Formatter) (now : Time)
    (logRecord : LogRecord) :
  (∀ a b, ¬ occurs_at "{levelname}" (f_fmt f) a b) →
  (∀ a b, ¬ occurs_at "{message}" (f_fmt f) a b) →
  (∀ a b, ¬ occurs_at "{asctime}" (f_fmt f) a b) →
  Format_line f now logRecord = f_fmt f ∧
  Format_line (NewFormatter_value []) now logRecord = "".
Proof.
  intros Hl Hm Ha. unfold Format_line. split.
  - rewrite (strings_Replace1_absent (f_fmt f) "{levelname}")
      by (by apply strings_Index_absent).
    rewrite (strings_Replace1_absent (f_fmt f) "{message}")
      by (by apply strings_Index_absent).
    by rewrite (strings_Replace1_absent (f_fmt f) "{asctime}")
      by (by apply strings_Index_absent).
  - simpl. by rewrite !(strings_Replace1_absent "").
Qed.

(** X3.  With the format and date format the configuration starts with,
    a record is formatted as the level name, a colon, the time, a dash
    and the rendered message, whatever the message contains. *)
Theorem Format_default_template (now : Time) (logRecord : LogRecord) :
  Format_line
    (mkFormatter (c_format initial_config) (c_datefmt initial_config))
    now logRecord
  = LogLevel_String (r_level logRecord) +:+ ": "
    +:+ Time_Format now "2006-01-02 15:04:05"
    +:+ " - " +:+ render_msg logRecord.
Proof.
  unfold Format_line. cbn [f_fmt f_dateFmt initial_config c_format c_datefmt].
  generalize (render_msg logRecord) (Time_Format now "2006-01-02 15:04:05").
  intros msg t.
  destruct (LogLevel_String_cases (r_level logRecord))
    as [[_ ->]|[[_ ->]|[[_ ->]|[[_ ->]|[[_ ->]|[[_ ->]|[_ ->]]]]]]].
  all: match goal with
       | |- context [strings_Replace1 ?s "{levelname}" ?n] =>
           let x := eval vm_compute in (strings_Replace1 s "{levelname}" n) in
           change (strings_Replace1 s "{levelname}" n) with x
       end.
  all: match goal with
       | |- context [strings_Replace1 ?s "{message}" ?m] =>
           let j := eval vm_compute in (strings_Index s "{message}") in
           match j with
           | Some ?k =>
               rewrite (strings_Replace1_at s "{message}" m k)
                 by (vm_compute; reflexivity);
               let a := eval vm_compute in (string_upto k s) in
               change (string_upto k s) with a;
               let b := eval vm_compute in
                 (string_from (k + String.length "{message}") s) in
               change (string_from (k + String.length "{message}") s) with b
           end
       end.
  all: rewrite append_nil_r.
  all: match goal with
       | |- strings_Replace1 ?s ?old ?new = _ =>
           let j := eval vm_compute in (strings_Index s old) in
           match j with
           | Some ?k =>
               rewrite (strings_Replace1_at s old new k)
                 by (vm_compute; reflexivity)
           end
       end.
  all: vm_compute; reflexivity.
Qed.
End FormatMore.

Lemma Format_without_placeholders_witness :
  Format_line (RT := go_fragment) (mkFormatter "log entry" "2006")
    (mkTime 2026 10 31 12 0 0) (NewLogRecord INFO "app" "hello" [])
  = "log entry".
Proof.
  refine (proj1 (Format_without_placeholders (RT := go_fragment)
                   (mkFormatter "log entry" "2006") _ _ _ _ _));
    intros a b; apply strings_Index_None; reflexivity.
Defined.

(** ** Handlers: accessors and Emit *)

Section HandlerAccessors.
Context `{RT : Runtime}.

Ltac unfold_ops :=
  unfold LogHandler_SetLevel, LogHandler_SetFormatter, LogHandler_GetLevel,
    LogHandler_GetFormatter, update_handler, LogHandler_Emit,
    LogHandler_Format, Formatter_Format, fmt_Fprintln, time_Now_call,
    Logger_GetName, Logger_SetLevel, Logger_AddHandler, update_logger,
    Logger_Log, ILogHandler_GetLevel, ILogHandler_Handle, deref_handler,
    deref, get_world, panic, record_event, modify, mbind, mret, M_bind, M_ret.

(** X4.  After [SetLevel(level)] on a handler, [GetLevel] returns
    [level], the gate of [Log] lets a record through exactly from
    [level] on, the formatter of the handler and every other handler
    are as before, and nothing but the handler heap has changed. *)
Theorem LogHandler_SetLevel_then_GetLevel (w : World) (h : nat) (hd : Handler)
    (level : LogLevel) :
  handler_heap w !! h = Some hd →
  ∃ w1,
    LogHandler_SetLevel h level w = Ret () w1 ∧
    LogHandler_GetLevel h w1 = Ret level w1 ∧
    LogHandler_GetFormatter h w1 = Ret (h_formatter (hd_base hd)) w1 ∧
    (∀ lv, passes w1 lv (Some h) = if lv >=? level then Some h else None) ∧
    (∀ h', h' ≠ h → handler_heap w1 !! h' = handler_heap w !! h') ∧
    w1 = set_handler_heap (handler_heap w1) w.
Proof.
  intros Hh. pose proof (lookup_lt_Some _ _ _ Hh) as Hlt.
  eexists. split; [unfold_ops; simpl; rewrite Hh; reflexivity|].
  unfold_ops. unfold passes. simpl. rewrite list_lookup_insert_eq by done. simpl.
  repeat split. intros h' Hne. by rewrite list_lookup_insert_ne.
Qed.

(** X5.  After [SetFormatter(f)] on a handler, [GetFormatter] returns
    [f], the level is as before, and [Format] is the [Format] of [f];
    with the nil formatter, [Emit] reads the clock and panics, writing
    nothing.  Every other handler is as before. *)
Theorem LogHandler_SetFormatter_then_Format (w : World) (h : nat)
    (hd : Handler) (formatter : option nat) (logRecord : LogRecord) :
  handler_heap w !! h = Some hd →
  ∃ w1,
    LogHandler_SetFormatter h formatter w = Ret () w1 ∧
    LogHandler_GetFormatter h w1 = Ret formatter w1 ∧
    LogHandler_GetLevel h w1 = Ret (h_level (hd_base hd)) w1 ∧
    LogHandler_Format h logRecord w1 = Formatter_Format formatter logRecord w1 ∧
    (formatter = None →
     LogHandler_Emit h logRecord w1 = Panic (touch 1 [] w1)) ∧
    (∀ h', h' ≠ h → handler_heap w1 !! h' = handler_heap w !! h') ∧
    w1 = set_handler_heap (handler_heap w1) w.
Proof.
  intros Hh. pose proof (lookup_lt_Some _ _ _ Hh) as Hlt.
  eexists. split; [unfold_ops; simpl; rewrite Hh; reflexivity|].
  unfold_ops. simpl. rewrite list_lookup_insert_eq by done. simpl.
  repeat split.
  - intros ->. repeat (progress (simpl; rewrite ?list_lookup_insert_eq by done)).
    unfold touch. simpl. by rewrite app_nil_r.
  - intros h' Hne. by rewrite list_lookup_insert_ne.
Qed.

(** X6.  Every method of a handler or of a logger called on a pointer
    that points to nothing panics and leaves the world as it is, and so
    do [GetLevel] and [Handle] called through a nil interface value. *)
Theorem nil_receiver_panics (w : World) (p : nat) :
  (handler_heap w !! p = None →
   LogHandler_GetLevel p w = Panic w ∧
   LogHandler_GetFormatter p w = Panic w ∧
   (∀ level, LogHandler_SetLevel p level w = Panic w) ∧
   (∀ f, LogHandler_SetFormatter p f w = Panic w) ∧
   (∀ r, LogHandler_Format p r w = Panic w) ∧
   (∀ r, LogHandler_Emit p r w = Panic w) ∧
   ILogHandler_GetLevel (Some p) w = Panic w ∧
   (∀ r, ILogHandler_Handle (Some p) r w = Panic w)) ∧
  (logger_heap w !! p = None →
   Logger_GetName p w = Panic w ∧
   (∀ level, Logger_SetLevel p level w = Panic w) ∧
   (∀ handler, Logger_AddHandler p handler w = Panic w) ∧
   (∀ level msg args, Logger_Log p level msg args w = Panic w)) ∧
  ILogHandler_GetLevel None w = Panic w ∧
  (∀ r, ILogHandler_Handle None r w = Panic w).
Proof.
  split; [|split; [|split]].
  - intros Hp. repeat split; intros; unfold_ops; simpl; by rewrite Hp.
  - intros Hp. repeat split; intros; unfold_ops; simpl; by rewrite Hp.
  - done.
  - done.
Qed.

(** X7.  [Emit] on a handler with a formatter reads the clock once and
    then: writes the formatted line and a newline, in one write, to a
    writer that accepts it; writes nothing and returns when the sink is
    the nil file a failed open leaves; panics when there is no sink. *)
Theorem LogHandler_Emit_by_sink (w : World) (h : nat) (hd : Handler)
    (f : nat) (fm : Formatter) (logRecord : LogRecord) :
  handler_heap w !! h = Some hd →
  h_formatter (hd_base hd) = Some f →
  formatter_heap w !! f = Some fm →
  LogHandler_Emit h logRecord w
  = match h_logger (hd_base hd) with
    | None => Panic (touch 1 [] w)
    | Some NilFile => Ret () (touch 1 [] w)
    | Some wr =>
        Ret () (touch 1 [EvWrite wr (Format_line fm (time_Now (ticks w))
                                       logRecord +:+ newline)] w)
    end.
Proof.
  intros Hh Hf Hfm. unfold_ops. simpl.
  repeat (simpl; first [rewrite Hh | rewrite Hf | rewrite Hfm]).
  destruct (h_logger (hd_base hd)) as [[]|]; simpl; unfold touch; simpl;
    by rewrite ?app_nil_r.
Qed.
End HandlerAccessors.

Lemma LogHandler_SetLevel_then_GetLevel_witness :
  ∃ w1,
    LogHandler_SetLevel 0 CRITICAL handle_demo_world = Ret () w1 ∧
    LogHandler_GetLevel 0 w1 = Ret CRITICAL w1.
Proof.
  destruct (LogHandler_SetLevel_then_GetLevel handle_demo_world 0 _ CRITICAL
              eq_refl) as (w1 & Hset & Hget & _).
  exists w1. exact (conj Hset Hget).
Defined.

Lemma LogHandler_SetFormatter_then_Format_witness :
  ∃ w1,
    LogHandler_SetFormatter 0 None handle_demo_world = Ret () w1 ∧
    LogHandler_Emit (RT := go_fragment) 0 (NewLogRecord ERROR "app" "x" []) w1
    = Panic (touch 1 [] w1).
Proof.
  destruct (LogHandler_SetFormatter_then_Format (RT := go_fragment)
              handle_demo_world 0 _ None (NewLogRecord ERROR "app" "x" [])
              eq_refl) as (w1 & Hset & _ & _ & _ & Hemit & _).
  exists w1. exact (conj Hset (Hemit eq_refl)).
Defined.

Lemma nil_receiver_panics_witness :
  LogHandler_GetLevel 0 initial_world = Panic initial_world ∧
  Logger_GetName 0 initial_world = Panic initial_world.
Proof.
  destruct (nil_receiver_panics (RT := go_fragment) initial_world 0)
    as (Hh & Hl & _).
  exact (conj (proj1 (Hh eq_refl)) (proj1 (Hl eq_refl))).
Defined.

Lemma LogHandler_Emit_by_sink_witness :
  LogHandler_Emit (RT := go_fragment) 0 (NewLogRecord ERROR "app" "boom" [])
    handle_demo_world
  = Ret () (touch 1 [EvWrite (Buffer 7) ("ERROR: boom" +:+ newline)]
              handle_demo_world).
Proof.
  exact (LogHandler_Emit_by_sink (RT := go_fragment) handle_demo_world 0 _ 0
           _ (NewLogRecord ERROR "app" "boom" []) eq_refl eq_refl eq_refl).
Defined.

(** ** What runs keep *)

(** As [keeps_run], for relations that hold of the updates the calls
    make to the loggers and to the configuration, not of every update. *)
Section Updates.
Context `{RT : Runtime}.
Variable P : World → World → Prop.
Hypothesis P_refl : ∀ w, P w w.
Hypothesis P_trans : ∀ w1 w2 w3, P w1 w2 → P w2 w3 → P w1 w3.
Hypothesis P_handler_heap : ∀ h w, P w (set_handler_heap h w).
Hypothesis P_formatter_heap : ∀ h w, P w (set_formatter_heap h w).
Hypothesis P_ticks : ∀ n w, P w (set_ticks n w).
Hypothesis P_events : ∀ e w, P w (set_events e w).
Hypothesis P_filename : ∀ s w, P w (set_config (with_filename s (config w)) w).
Hypothesis P_filemode : ∀ s w, P w (set_config (with_filemode s (config w)) w).
Hypothesis P_format : ∀ s w, P w (set_config (with_format s (config w)) w).
Hypothesis P_datefmt : ∀ s w, P w (set_config (with_datefmt s (config w)) w).
Hypothesis P_stream : ∀ s w, P w (set_config (with_stream s (config w)) w).
Hypothesis P_new_logger : ∀ name w,
  P w (set_logger_heap (logger_heap w ++ [mkLogger 0 name []]) w).
Hypothesis P_set_level : ∀ l lg level w,
  logger_heap w !! l = Some lg →
  P w (set_logger_heap (<[l := with_l_level level lg]> (logger_heap w)) w).
Hypothesis P_add_handler : ∀ l lg handler w,
  logger_heap w !! l = Some lg →
  P w (set_logger_heap
         (<[l := with_l_handlers (l_handlers lg ++ [handler]) lg]>
            (logger_heap w)) w).
Hypothesis P_register : ∀ name w,
  loggers_items w !! name = None →
  P w (set_loggers_items
         (<[name := length (logger_heap w)]> (loggers_items w))
         (set_logger_heap (logger_heap w ++ [mkLogger 0 name []]) w)).

Local Abbreviation keeps := (keeps P).

Lemma updates_discard {A} (m : M A) : keeps m → keeps (discard m).
Proof.
  intros Hm. apply keeps_bind; [done | done | intros; by apply keeps_ret].
Qed.

Lemma updates_alloc (m : M LogHandler) (kind : HandlerKind) :
  keeps m → keeps (lh ← m; alloc_handler (mkHandler kind lh)).
Proof.
  intros Hm. apply keeps_bind; [done | done |].
  intros lh. by apply keeps_alloc_handler.
Qed.

Lemma updates_BasicConfig conf : keeps (BasicConfig conf).
Proof.
  induction conf as [|[k v] conf IH]; [by apply keeps_ret|].
  cbn [BasicConfig]. apply keeps_bind; [done | | done].
  intros w. unfold BasicConfig_entry, assert_string, assert_Writer, modify,
    panic, mbind, mret, M_bind, M_ret.
  repeat (destruct (String.eqb (strings_ToLower k) _);
          [destruct v; simpl; auto|]).
  simpl. auto.
Qed.

Lemma updates_exec (c : Call) : keeps (exec c).
Proof.
  destruct c; cbn [exec].
  - intros w. unfold discard, GetLogger, NewLogger, modify, get_world, mbind,
      mret, M_bind, M_ret.
    destruct (loggers_items w !! _) eqn:Hl; simpl; [done|].
    by apply P_register.
  - intros w. apply P_new_logger.
  - apply updates_discard, keeps_bind; [done | by apply keeps_deref |].
    intros; by apply keeps_ret.
  - intros w. unfold Logger_SetLevel, update_logger, deref, get_world, modify,
      panic, mbind, mret, M_bind, M_ret. simpl.
    destruct (logger_heap w !! l) eqn:Hl; simpl; [by apply P_set_level | done].
  - intros w. unfold Logger_AddHandler, update_logger, deref, get_world,
      modify, panic, mbind, mret, M_bind, M_ret. simpl.
    destruct (logger_heap w !! l) eqn:Hl; simpl; [by apply P_add_handler | done].
  - apply keeps_bind; [done | by apply keeps_deref |]. intros lg.
    apply keeps_bind; [done | by apply keeps_Log_range |]. intros _.
    destruct (level =? FATAL); [by apply keeps_exit | by apply keeps_ret].
  - apply updates_BasicConfig.
  - by apply updates_discard, keeps_NewFormatter.
  - by apply updates_discard, updates_alloc, keeps_NewLogHandler_value.
  - by apply updates_discard, updates_alloc, keeps_NewStreamHandler_value.
  - by apply updates_discard, updates_alloc, keeps_NewStreamHandler_value.
  - by apply updates_discard, updates_alloc, keeps_NewLogHandler_value.
  - by apply keeps_update_handler.
  - by apply keeps_update_handler.
  - by apply keeps_ILogHandler_Handle.
  - by apply keeps_LogHandler_Emit.
  - by apply keeps_ServiceHandler_Emit.
Qed.

Lemma updates_run (cs : list Call) (w : World) : P w (run cs w).
Proof.
  revert w. induction cs as [|c cs IH]; intros w; simpl; [done|].
  pose proof (updates_exec c w) as Hc.
  destruct (exec c w); simpl in Hc; [| |done];
    (eapply P_trans; [exact Hc | apply IH]).
Qed.
End Updates.

Section Reachable.
Context `{RT : Runtime}.

Lemma loggers_grow_refl (w : World) : loggers_grow w w.
Proof. intros p lg Hp. by exists lg. Qed.

Lemma loggers_grow_same_heap (w w' : World) :
  logger_heap w' = logger_heap w → loggers_grow w w'.
Proof. intros Heq p lg Hp. exists lg. by rewrite Heq. Qed.

Lemma loggers_grow_update (w : World) (l : nat) (lg lg' : Logger) :
  logger_heap w !! l = Some lg →
  l_name lg' = l_name lg →
  l_handlers lg `prefix_of` l_handlers lg' →
  loggers_grow w (set_logger_heap (<[l := lg']> (logger_heap w)) w).
Proof.
  intros Hl Hname Hpre p lg0 Hp. simpl.
  destruct (decide (l = p)) as [<-|Hne].
  - exists lg'. rewrite list_lookup_insert_eq by (by eapply lookup_lt_Some).
    by simplify_eq.
  - exists lg0. by rewrite list_lookup_insert_ne.
Qed.

Lemma loggers_grow_alloc (w : World) (lg : Logger) :
  loggers_grow w (set_logger_heap (logger_heap w ++ [lg]) w).
Proof.
  intros p lg0 Hp. exists lg0. simpl. by erewrite lookup_app_l_Some.
Qed.

(** X8.  Through any sequence of calls a logger stays where it is and
    keeps its name, and its handler list only gets longer: what was
    attached stays attached, in the same order. *)
Theorem loggers_only_grow (cs : list Call) (w : World) (p : nat) (lg : Logger) :
  logger_heap w !! p = Some lg →
  ∃ lg', logger_heap (run cs w) !! p = Some lg' ∧
         l_name lg' = l_name lg ∧
         l_handlers lg `prefix_of` l_handlers lg'.
Proof.
  revert p lg. change (loggers_grow w (run cs w)).
  apply updates_run; clear w cs;
    try (intros; by apply loggers_grow_same_heap).
  - intros w1 w2 w3 H12 H23 p lg Hp.
    destruct (H12 p lg Hp) as (lg2 & Hp2 & Hn2 & Hh2).
    destruct (H23 p lg2 Hp2) as (lg3 & Hp3 & Hn3 & Hh3).
    exists lg3. split; [done|]. split; [congruence | by etrans].
  - intros. apply loggers_grow_alloc.
  - intros l lg level w Hl. by apply (loggers_grow_update w l lg).
  - intros l lg handler w Hl. apply (loggers_grow_update w l lg); [done..|].
    by apply prefix_app_r.
  - intros name w _ p lg Hp. exists lg. simpl. by erewrite lookup_app_l_Some.
Qed.

Lemma registry_ok_run (cs : list Call) (w : World) :
  registry_ok w → registry_ok (run cs w).
Proof.
  revert cs w.
  refine (updates_run (λ w w', registry_ok w → registry_ok w')
            _ _ _ _ _ _ _ _ _ _ _ _ _ _ _); try done; try by auto.
  - intros name w Hok x p Hx. destruct (Hok x p Hx) as (lg & Hp & Hn).
    exists lg. simpl. by erewrite lookup_app_l_Some.
  - intros l lg level w Hl Hok x p Hx. destruct (Hok x p Hx) as (lg0 & Hp & Hn).
    destruct (loggers_grow_update w l lg (with_l_level level lg) Hl eq_refl
                ltac:(done) p lg0 Hp) as (lg' & ? & ? & _).
    exists lg'. split; [done | congruence].
  - intros l lg handler w Hl Hok x p Hx.
    destruct (Hok x p Hx) as (lg0 & Hp & Hn).
    destruct (loggers_grow_update w l lg
                (with_l_handlers (l_handlers lg ++ [handler]) lg) Hl eq_refl
                ltac:(by apply prefix_app_r) p lg0 Hp) as (lg' & ? & ? & _).
    exists lg'. split; [done | congruence].
  - intros name w Hfresh Hok x p. simpl.
    destruct (decide (name = x)) as [<-|Hne].
    + rewrite lookup_insert_eq. intros [= <-].
      eexists. by rewrite list_lookup_middle.
    + rewrite lookup_insert_ne by done. intros Hx.
      destruct (Hok x p Hx) as (lg & Hp & Hn).
      exists lg. by erewrite lookup_app_l_Some.
Qed.

Lemma registry_ok_initial : registry_ok initial_world.
Proof. intros name p Hp. simpl in Hp. by rewrite lookup_empty in Hp. Qed.

(** X9.  In every state a program can reach, [GetLogger] returns a
    logger whose name is the one asked for (["root"] unless exactly one
    name is given), and two names of the registry never share a
    logger. *)
Theorem GetLogger_returns_named_logger (cs : list Call)
    (loggername : list string) :
  let w := run cs initial_world in
  (∃ p w1,
     GetLogger loggername w = Ret p w1 ∧
     Logger_GetName p w1 = Ret (requested_name loggername) w1) ∧
  (∀ x y p, loggers_items w !! x = Some p → loggers_items w !! y = Some p →
            x = y).
Proof.
  intros w. assert (registry_ok w) as Hok
    by apply registry_ok_run, registry_ok_initial.
  split.
  - unfold GetLogger, NewLogger, Logger_GetName, deref, modify, get_world,
      mbind, mret, M_bind, M_ret. fold (requested_name loggername).
    destruct (loggers_items w !! requested_name loggername) as [p|] eqn:Hp.
    + destruct (Hok _ _ Hp) as (lg & Hlg & Hn).
      exists p, w. split; [done|]. rewrite Hlg. simpl. by rewrite Hn.
    + eexists _, _. split; [reflexivity|]. simpl.
      by rewrite list_lookup_middle.
  - intros x y p Hx Hy.
    destruct (Hok _ _ Hx) as (lg & Hlg & <-).
    destruct (Hok _ _ Hy) as (lg' & Hlg' & <-). congruence.
Qed.

(** X10.  No call changes the level of the configuration, [BasicConfig]
    included: it is the same after any sequence of calls. *)
Theorem config_level_never_changes (cs : list Call) (w : World) :
  c_level (config (run cs w)) = c_level (config w).
Proof.
  revert cs w.
  refine (updates_run (λ w w', c_level (config w') = c_level (config w))
            _ _ _ _ _ _ _ _ _ _ _ _ _ _ _); try done.
  intros w1 w2 w3 H12 H23. congruence.
Qed.
End Reachable.

Lemma loggers_only_grow_witness :
  ∃ lg', logger_heap
           (run (RT := go_fragment)
              [CallAddHandler 0 None; CallSetLevel 0 ERROR]
              dispatch_demo_world) !! 0%nat = Some lg' ∧
         l_name lg' = "app" ∧
         [Some 0%nat; Some 1%nat] `prefix_of` l_handlers lg'.
Proof.
  exact (loggers_only_grow (RT := go_fragment)
           [CallAddHandler 0 None; CallSetLevel 0 ERROR]
           dispatch_demo_world 0 _ eq_refl).
Defined.

(** ** More on Log *)

Section LogMore.
Context `{RT : Runtime}.

Lemma Log_range_silent (level : LogLevel) (r : LogRecord)
    (hs : list ILogHandler) (w : World) :
  forallb (silent_for w level) hs = true → Log_range level r hs w = Ret () w.
Proof.
  induction hs as [|handler hs IH]; [done|].
  cbn [forallb Log_range]. intros [Hs Hhs]%andb_prop.
  rewrite bind_unfold, ILogHandler_GetLevel_unfold.
  unfold silent_for in Hs.
  destruct (handler ≫= _) as [hd|]; [|done].
  rewrite bind_unfold.
  replace (level >=? h_level (hd_base hd)) with false by lia.
  by apply IH.
Qed.

Lemma Logger_Log_after_loop (w : World) (l : nat) (lg : Logger)
    (level : LogLevel) (msg : string) (args : list value) (w' : World) :
  logger_heap w !! l = Some lg →
  Log_range level (NewLogRecord level (l_name lg) msg args) (l_handlers lg) w
    = Ret () w' →
  Logger_Log l level msg args w = after_loop level w'.
Proof.
  intros Hl Hloop. by rewrite (Logger_Log_unfold _ _ _ _ _ _ Hl), Hloop.
Qed.

(** X11.  When every handler of the logger has a threshold above
    [level], [Log] leaves the world exactly as it was: nothing is
    formatted, the clock is not read, nothing is written; it returns,
    or at [FATAL] exits with status 1. *)
Theorem Log_below_every_threshold (w : World) (l : nat) (lg : Logger)
    (level : LogLevel) (msg : string) (args : list value) :
  logger_heap w !! l = Some lg →
  forallb (silent_for w level) (l_handlers lg) = true →
  Logger_Log l level msg args w = after_loop level w.
Proof.
  intros Hl Hs. apply (Logger_Log_after_loop w l lg); [done|].
  by apply Log_range_silent.
Qed.

Lemma ILogHandler_Handle_sound_effect (w : World) (p : nat) (r : LogRecord) :
  sound_handler w (Some p) = true →
  ∃ evs, ILogHandler_Handle (Some p) r w
         = Ret () (touch 1 (EvHandle p r :: evs) w) ∧
         handle_calls evs = [].
Proof.
  unfold sound_handler. intros Hs.
  unfold ILogHandler_Handle, ServiceHandler_Handle, ServiceHandler_Emit,
    logger_call, LogHandler_Handle, LogHandler_Emit, LogHandler_Format,
    Formatter_Format, fmt_Fprintln, time_Now_call, deref_handler, deref,
    get_world, panic, record_event, modify, mbind, mret, M_bind, M_ret.
  simpl in *.
  repeat (case_match; simplify_eq/=);
    try (apply andb_prop in Hs as [Hf Hk];
         repeat match goal with
                | H : ?x = _, H' : context [?x] |- _ => rewrite H in H'; simpl in H'
                end; done);
    first [ by exists []
          | eexists [_]; unfold touch; simpl; rewrite <-app_assoc;
            split; [reflexivity | done] ].
Qed.

Lemma Log_range_sound_effect (level : LogLevel) (r : LogRecord)
    (hs : list ILogHandler) (w : World) :
  forallb (sound_handler w) hs = true →
  ∃ evs, Log_range level r hs w
         = Ret () (touch (length (gated w level hs)) evs w).
Proof.
  revert w. induction hs as [|handler hs IH]; intros w.
  { exists []. by rewrite touch_0. }
  cbn [forallb Log_range]. intros [Hs Hhs]%andb_prop.
  rewrite bind_unfold, ILogHandler_GetLevel_unfold, gated_cons.
  unfold passes. destruct handler as [p|]; [|done]. simpl.
  destruct (handler_heap w !! p) as [hd|] eqn:Hp; simpl;
    [|by unfold sound_handler in Hs; simpl in Hs; rewrite Hp in Hs].
  rewrite bind_unfold.
  destruct (level >=? h_level (hd_base hd)); simpl; [|by apply IH].
  destruct (ILogHandler_Handle_sound_effect w p r Hs) as (e1 & -> & _).
  destruct (IH (touch 1 (EvHandle p r :: e1) w) Hhs) as (e2 & ->).
  eexists. rewrite gated_touch, touch_touch. reflexivity.
Qed.

(** X12.  With handlers whose formatter and sink are in place, [Log]
    does not panic at any level: it returns (at [FATAL]: exits with
    status 1) having read the clock once for each handler that passed
    its gate, and having changed nothing but the clock and the
    events. *)
Theorem Log_reads_clock_per_delivery (w : World) (l : nat) (lg : Logger)
    (level : LogLevel) (msg : string) (args : list value) :
  logger_heap w !! l = Some lg →
  forallb (sound_handler w) (l_handlers lg) = true →
  ∃ evs, Logger_Log l level msg args w
         = after_loop level
             (touch (length (gated w level (l_handlers lg))) evs w).
Proof.
  intros Hl Hs.
  destruct (Log_range_sound_effect level
              (NewLogRecord level (l_name lg) msg args) _ w Hs) as (evs & Hloop).
  exists evs. by apply (Logger_Log_after_loop w l lg).
Qed.

(** The loop panics as soon as the list holds a handler on which one
    round of the loop panics, whatever comes before it. *)
Lemma Log_range_stops (level : LogLevel) (r : LogRecord)
    (hs : list ILogHandler) (w : World) (bad : World → ILogHandler → bool) :
  (∀ n evs w' h, bad w' h = bad (touch n evs w') h) →
  (∀ w' h, bad w' h = true →
     is_Panic ((hl ← ILogHandler_GetLevel h;
                if level >=? hl then ILogHandler_Handle h r else mret ()) w')
     = true) →
  existsb (bad w) hs = true →
  is_Panic (Log_range level r hs w) = true.
Proof.
  intros Hbad_touch Hbad. revert w.
  induction hs as [|handler hs IH]; intros w; [done|].
  cbn [existsb Log_range]. intros Hex.
  destruct (bad w handler) eqn:Hb.
  - specialize (Hbad w handler Hb). rewrite bind_unfold in Hbad |- *.
    destruct (ILogHandler_GetLevel handler w) as [hl w1|w1|c w1]; [|done..].
    rewrite bind_unfold.
    by destruct (if level >=? hl then _ else _) as [[] ?|?|??].
  - simpl in Hex. rewrite bind_unfold, ILogHandler_GetLevel_unfold.
    destruct handler as [p|]; [|done]. simpl.
    destruct (handler_heap w !! p) as [hd|] eqn:Hp; [|done]. simpl.
    rewrite bind_unfold.
    destruct (level >=? h_level (hd_base hd)); simpl; [|by apply IH].
    destruct (ILogHandler_Handle_effect w p hd r Hp) as (n & evs & Hw & _ & Hx).
    destruct (ILogHandler_Handle (Some p) r w) as [[] w1|w1|c w1];
      simpl in *; [|done..].
    subst w1. apply IH.
    rewrite <-Hex. clear -Hbad_touch. induction hs as [|h hs IH]; [done|].
    simpl. by rewrite IH, <-Hbad_touch.
Qed.

(** X13.  [AddHandler] accepts a nil handler; from then on every [Log]
    on that logger panics, at every level. *)
Theorem AddHandler_nil_breaks_Log (w : World) (l : nat) (lg : Logger) :
  logger_heap w !! l = Some lg →
  ∃ w1, Logger_AddHandler l None w = Ret () w1 ∧
        ∀ level msg args, is_Panic (Logger_Log l level msg args w1) = true.
Proof.
  intros Hl. eexists. split; [by apply Logger_AddHandler_unfold|].
  intros level msg args.
  rewrite (Logger_Log_unfold _ l
             (with_l_handlers (l_handlers lg ++ [None]) lg))
    by (simpl; apply list_lookup_insert_eq; by eapply lookup_lt_Some).
  simpl.
  assert (is_Panic
            (Log_range level (NewLogRecord level (l_name lg) msg args)
               (l_handlers lg ++ [None])
               (set_logger_heap
                  (<[l := with_l_handlers (l_handlers lg ++ [None]) lg]>
                     (logger_heap w)) w)) = true) as Hstop.
  { apply (Log_range_stops _ _ _ _
             (λ _ h, match h with None => true | Some _ => false end));
      [done | by intros ? [] |].
    rewrite existsb_app. simpl. by rewrite orb_true_r. }
  by destruct (Log_range _ _ _ _).
Qed.

Lemma service_handler_panics (w : World) (level : LogLevel)
    (handler : ILogHandler) (r : LogRecord) :
  servicehandler_logger w = None →
  service_passes w level handler = true →
  is_Panic ((hl ← ILogHandler_GetLevel handler;
             if level >=? hl then ILogHandler_Handle handler r else mret ()) w)
  = true.
Proof.
  intros Hnil Hs. unfold service_passes in Hs.
  rewrite bind_unfold, ILogHandler_GetLevel_unfold.
  destruct handler as [p|]; [|done]. simpl in *.
  destruct (handler_heap w !! p) as [hd|] eqn:Hp; [|done]. simpl in *.
  destruct (hd_kind hd) eqn:Hk; try done. rewrite Hs.
  unfold ILogHandler_Handle, deref_handler, deref, get_world.
  rewrite !bind_unfold. simpl. rewrite Hp. simpl. rewrite Hk.
  unfold ServiceHandler_Handle. rewrite bind_unfold. simpl.
  apply ServiceHandler_Emit_nil_logger. done.
Qed.

(** X14.  In every state a program can reach, [Log] on a logger that
    has a [ServiceHandler] whose threshold is at most [level] panics;
    at [FATAL] the process is then not ended by [Log]. *)
Theorem Log_panics_on_ServiceHandler (cs : list Call) (l : nat) (lg : Logger)
    (level : LogLevel) (msg : string) (args : list value) :
  let w := run cs initial_world in
  logger_heap w !! l = Some lg →
  existsb (service_passes w level) (l_handlers lg) = true →
  is_Panic (Logger_Log l level msg args w) = true.
Proof.
  intros w Hl Hex. rewrite (Logger_Log_unfold _ _ _ _ _ _ Hl).
  assert (servicehandler_logger w = None) as Hnil
    by (unfold w; by rewrite servicehandler_logger_run).
  assert (is_Panic
            (Log_range level (NewLogRecord level (l_name lg) msg args)
               (l_handlers lg) w) = true) as Hstop.
  { apply (Log_range_stops _ _ _ _
             (λ w' h, service_passes w' level h
                      && negb (has (servicehandler_logger w')))); [done | |].
    - intros w' h [Hs Hn]%andb_prop. apply service_handler_panics; [|done].
      by destruct (servicehandler_logger w').
    - rewrite <-Hex. rewrite Hnil. simpl.
      clear. induction (l_handlers lg) as [|h hs IH]; [done|].
      simpl. by rewrite IH, andb_true_r. }
  by destruct (Log_range _ _ _ w).
Qed.

Lemma gated_app (w : World) (level : LogLevel) (hs1 hs2 : list ILogHandler) :
  gated w level (hs1 ++ hs2) = gated w level hs1 ++ gated w level hs2.
Proof. apply omap_app. Qed.

(** X15.  [AddHandler] does not look for duplicates: a handler added
    twice is in the list twice, and a [Log] that passes its gate and
    does not panic enters it twice, after the handlers that were there
    before. *)
Theorem AddHandler_twice_delivers_twice (w : World) (l : nat) (lg : Logger)
    (p : nat) (hd : Handler) (level : LogLevel) (msg : string)
    (args : list value) :
  logger_heap w !! l = Some lg →
  handler_heap w !! p = Some hd →
  h_level (hd_base hd) ≤ level →
  ∃ w2,
    (Logger_AddHandler l (Some p);; Logger_AddHandler l (Some p)) w
      = Ret () w2 ∧
    logger_heap w2 !! l
      = Some (with_l_handlers (l_handlers lg ++ [Some p; Some p]) lg) ∧
    (is_Panic (Logger_Log l level msg args w2) = false →
     ∃ evs,
       events (world_of (Logger_Log l level msg args w2)) = events w2 ++ evs ∧
       handle_calls evs
       = ((., NewLogRecord level (l_name lg) msg args)
            <$> gated w level (l_handlers lg))
         ++ [(p, NewLogRecord level (l_name lg) msg args);
             (p, NewLogRecord level (l_name lg) msg args)]).
Proof.
  intros Hl Hp Hle. pose proof (lookup_lt_Some _ _ _ Hl) as Hlt.
  set (w2 := set_logger_heap
               (<[l := with_l_handlers (l_handlers lg ++ [Some p; Some p]) lg]>
                  (logger_heap w)) w).
  exists w2. split.
  { rewrite bind_unfold, (Logger_AddHandler_unfold _ _ _ _ Hl).
    rewrite (Logger_AddHandler_unfold _ l
               (with_l_handlers (l_handlers lg ++ [Some p]) lg))
      by (simpl; by apply list_lookup_insert_eq).
    unfold w2, set_logger_heap. simpl.
    by rewrite list_insert_insert_eq, <-app_assoc. }
  split; [by apply list_lookup_insert_eq|].
  rewrite (Logger_Log_unfold w2 l
             (with_l_handlers (l_handlers lg ++ [Some p; Some p]) lg))
    by (by apply list_lookup_insert_eq).
  simpl. set (r := NewLogRecord level (l_name lg) msg args).
  destruct (Log_range_effect level r (l_handlers lg ++ [Some p; Some p]) w2)
    as (n & evs & Hw & Hx & _ & Heq).
  destruct (Log_range level r _ w2) as [[] w'|w'|c w']; simpl in *; [|done..].
  intros Hnp. exists evs.
  assert (world_of (if level =? FATAL then Exit 1 w' else Ret () w') = w')
    as -> by (by destruct (level =? FATAL)).
  subst w'. split; [done|]. rewrite (Heq eq_refl), gated_app, fmap_app.
  f_equal. unfold gated, passes. simpl. rewrite Hp. simpl.
  by replace (level >=? h_level (hd_base hd)) with true by lia.
Qed.

(** X16.  [NewLogger] returns a new logger with the given name and no
    handler, on which [Log] does nothing; it does not touch the
    registry, so a later [GetLogger] of a name the registry does not
    have returns another logger. *)
Theorem NewLogger_is_not_registered (w : World) (name : string) :
  ∃ p w1,
    NewLogger name w = Ret p w1 ∧
    loggers_items w1 = loggers_items w ∧
    logger_heap w !! p = None ∧
    logger_heap w1 !! p = Some (mkLogger 0 name []) ∧
    (∀ level msg args, Logger_Log p level msg args w1 = after_loop level w1) ∧
    (loggers_items w !! name = None →
     ∃ q w2, GetLogger [name] w1 = Ret q w2 ∧ q ≠ p).
Proof.
  eexists _, _. split; [reflexivity|]. simpl.
  split; [done|]. split; [by apply lookup_ge_None_2|].
  split; [by apply list_lookup_middle|]. split.
  - intros level msg args.
    by apply (Logger_Log_after_loop _ _ (mkLogger 0 name []));
      [simpl; by apply list_lookup_middle|].
  - intros Hfresh. eexists _, _. split.
    + unfold GetLogger, NewLogger, modify, get_world, mbind, mret, M_bind,
        M_ret. simpl. rewrite Hfresh. reflexivity.
    + simpl. rewrite length_app. simpl. lia.
Qed.
(** X17.  A level set on a handler reaches the loggers the handler is
    already attached to: after [SetLevel(lv)], a [Log] that does not
    panic enters the handler exactly when [lv] is at most the level of
    the record. *)
Theorem SetLevel_reaches_attached_loggers (w : World) (h : nat) (hd : Handler)
    (lv : LogLevel) (l : nat) (lg : Logger) (level : LogLevel) (msg : string)
    (args : list value) :
  handler_heap w !! h = Some hd →
  logger_heap w !! l = Some lg →
  Some h ∈ l_handlers lg →
  ∃ w1,
    LogHandler_SetLevel h lv w = Ret () w1 ∧
    (is_Panic (Logger_Log l level msg args w1) = false →
     ∃ evs,
       events (world_of (Logger_Log l level msg args w1)) = events w1 ++ evs ∧
       ((h, NewLogRecord level (l_name lg) msg args) ∈ handle_calls evs
        ↔ lv ≤ level)).
Proof.
  intros Hh Hl Hin. pose proof (lookup_lt_Some _ _ _ Hh) as Hlt.
  set (w1 := set_handler_heap
               (<[h := map_base (with_level lv) hd]> (handler_heap w)) w).
  exists w1. split.
  { unfold LogHandler_SetLevel, update_handler, deref, get_world, modify,
      mbind, mret, M_bind, M_ret. simpl. by rewrite Hh. }
  rewrite (Logger_Log_unfold w1 l lg) by done.
  set (r := NewLogRecord level (l_name lg) msg args).
  destruct (Log_range_effect level r (l_handlers lg) w1)
    as (n & evs & Hw & Hx & _ & Heq).
  destruct (Log_range level r _ w1) as [[] w'|w'|c w']; simpl in *; [|done..].
  intros Hnp. exists evs.
  assert (world_of (if level =? FATAL then Exit 1 w' else Ret () w') = w')
    as -> by (by destruct (level =? FATAL)).
  subst w'. split; [done|]. rewrite (Heq eq_refl), list_elem_of_fmap.
  pose proof (elem_of_gated w1 level (l_handlers lg) h
                (map_base (with_level lv) hd)
                ltac:(by apply list_lookup_insert_eq)) as Hg.
  simpl in Hg. split.
  - intros (q & [= <-] & Hq). by apply Hg in Hq as [_ ?].
  - intros Hle. exists h. split; [done|]. by apply Hg.
Qed.
End LogMore.

Lemma Log_below_every_threshold_witness :
  Logger_Log (RT := go_fragment) 0 DEBUG "quiet" [] dispatch_demo_world
  = Ret () dispatch_demo_world.
Proof.
  exact (Log_below_every_threshold (RT := go_fragment) dispatch_demo_world 0 _
           DEBUG "quiet" [] eq_refl eq_refl).
Defined.

Lemma Log_reads_clock_per_delivery_witness :
  ∃ evs,
    Logger_Log (RT := go_fragment) 0 ERROR "boom" [] dispatch_demo_world
    = Ret () (touch 2 evs dispatch_demo_world).
Proof.
  exact (Log_reads_clock_per_delivery (RT := go_fragment) dispatch_demo_world
           0 _ ERROR "boom" [] eq_refl eq_refl).
Defined.

Lemma AddHandler_nil_breaks_Log_witness :
  ∃ w1,
    Logger_AddHandler 0 None dispatch_demo_world = Ret () w1 ∧
    is_Panic (Logger_Log (RT := go_fragment) 0 DEBUG "x" [] w1) = true.
Proof.
  destruct (AddHandler_nil_breaks_Log (RT := go_fragment) dispatch_demo_world
              0 _ eq_refl) as (w1 & Hadd & Hlog).
  exists w1. exact (conj Hadd (Hlog DEBUG "x" [])).
Defined.

Lemma Log_panics_on_ServiceHandler_witness :
  is_Panic
    (Logger_Log (RT := go_fragment) 0 ERROR "boom" []
       (run (RT := go_fragment) service_demo_calls initial_world)) = true.
Proof.
  exact (Log_panics_on_ServiceHandler (RT := go_fragment) service_demo_calls
           0 _ ERROR "boom" [] eq_refl eq_refl).
Defined.

Lemma AddHandler_twice_delivers_twice_witness :
  ∃ w2,
    (Logger_AddHandler 0 (Some 1%nat);; Logger_AddHandler 0 (Some 1%nat))
      dispatch_demo_world = Ret () w2 ∧
    logger_heap w2 !! 0%nat
    = Some (mkLogger 0 "app"
              [Some 0%nat; Some 1%nat; Some 1%nat; Some 1%nat]).
Proof.
  destruct (AddHandler_twice_delivers_twice (RT := go_fragment)
              dispatch_demo_world 0 _ 1 _ INFO "x" [] eq_refl eq_refl
              ltac:(done)) as (w2 & Hadd & Hl & _).
  exists w2. exact (conj Hadd Hl).
Defined.

Lemma SetLevel_reaches_attached_loggers_witness :
  ∃ w1, LogHandler_SetLevel 1 FATAL dispatch_demo_world = Ret () w1.
Proof.
  destruct (SetLevel_reaches_attached_loggers (RT := go_fragment)
              dispatch_demo_world 1 _ FATAL 0 _ INFO "x" [] eq_refl eq_refl
              ltac:(set_solver)) as (w1 & Hset & _).
  exists w1. exact Hset.
Defined.

(** ** Constructors and the configuration, continued *)

Section Constructors.
Context `{RT : Runtime}.

Ltac unfold_all :=
  unfold NewLogHandler, NewStreamHandler, NewFileHandler, NewServiceHandler,
    NewStreamHandler_value, NewLogHandler_value, NewFormatter, alloc_handler,
    ILogHandler_Handle, ServiceHandler_Handle, ServiceHandler_Emit,
    logger_call, LogHandler_Handle, LogHandler_Emit, LogHandler_Format,
    Formatter_Format, fmt_Fprintln, time_Now_call, deref_handler, deref,
    get_world, panic, record_event, modify, mbind, mret, M_bind, M_ret.

(** X18.  The four handler constructors and [NewFormatter] only add to
    the handler and formatter heaps: the handlers and formatters that
    exist, the loggers, the registry, the configuration, the clock and
    the events are as before. *)
Theorem constructors_only_allocate (w : World) :
  only_allocates w (world_of (NewLogHandler w)) ∧
  (∀ stream, only_allocates w (world_of (NewStreamHandler stream w))) ∧
  (∀ filename mode,
     only_allocates w (world_of (NewFileHandler filename mode w))) ∧
  (∀ service, only_allocates w (world_of (NewServiceHandler service w))) ∧
  (∀ params, only_allocates w (world_of (NewFormatter params w))).
Proof.
  repeat split; intros; simpl;
    first [done | by apply prefix_app_r | reflexivity].
Qed.

(** X19.  A handler from [NewFileHandler(filename, mode)] keeps the two
    arguments, takes level and formatter from the configuration and has
    the opened file as sink, whatever [mode] is; a record handled by it
    is written, formatted and followed by a newline, to that file, and
    when the file could not be opened [Handle] returns all the same and
    nothing is written. *)
Theorem NewFileHandler_then_Handle (w : World) (filename mode : string)
    (logRecord : LogRecord) :
  let h := length (handler_heap w) in
  let line :=
    Format_line (mkFormatter (c_format (config w)) (c_datefmt (config w)))
      (time_Now (ticks w)) logRecord in
  ∃ w',
    (h ← NewFileHandler filename mode; ILogHandler_Handle (Some h) logRecord) w
      = Ret () w' ∧
    handler_heap w' !! h
      = Some (mkHandler (IsFileHandler filename mode)
                (mkLogHandler (c_level (config w))
                   (Some (length (formatter_heap w)))
                   (Some (if os_OpenFile filename then File filename
                          else NilFile)))) ∧
    events w'
      = events w ++ EvHandle h logRecord
          :: (if os_OpenFile filename
              then [EvWrite (File filename) (line +:+ newline)] else []).
Proof.
  intros h line. unfold_all. simpl.
  repeat (rewrite list_lookup_middle by done; simpl).
  destruct (os_OpenFile filename); simpl;
    (eexists; split; [reflexivity|]; simpl;
     split; [by apply list_lookup_middle | by rewrite <-?app_assoc]).
Qed.

(** X20.  A handler from [NewLogHandler()] has no sink: [Handle] on it
    panics, and nothing is written. *)
Theorem NewLogHandler_has_no_sink (w : World) (logRecord : LogRecord) :
  ∃ w',
    (h ← NewLogHandler; ILogHandler_Handle (Some h) logRecord) w = Panic w' ∧
    events w' = events w ++ [EvHandle (length (handler_heap w)) logRecord].
Proof.
  unfold_all. simpl. repeat (rewrite list_lookup_middle by done; simpl).
  by eexists.
Qed.

(** X21.  [NewStreamHandler()] writes to the standard error stream
    also after [BasicConfig] has stored a stream in the configuration:
    the stream of the configuration is stored and not used. *)
Theorem NewStreamHandler_ignores_config_stream (w : World) (wr : Writer)
    (logRecord : LogRecord) :
  strings_ToLower "stream" = "stream" →
  let h := length (handler_heap w) in
  let line :=
    Format_line (mkFormatter (c_format (config w)) (c_datefmt (config w)))
      (time_Now (ticks w)) logRecord in
  ∃ w',
    (BasicConfig [("stream", VWriter wr)];;
     h ← NewStreamHandler []; LogHandler_Handle h logRecord) w = Ret () w' ∧
    c_stream (config w') = Some wr ∧
    events w'
      = events w ++ [EvHandle h logRecord; EvWrite Stderr (line +:+ newline)].
Proof.
  intros Hstream h line. cbn [BasicConfig]. unfold BasicConfig_entry.
  rewrite Hstream. simpl. unfold assert_Writer. unfold_all. simpl.
  repeat (rewrite list_lookup_middle by done; simpl).
  eexists. split; [reflexivity|]. simpl. split; [done|].
  by rewrite <-app_assoc.
Qed.

Lemma BasicConfig_app (conf1 conf2 : list (string * value)) (w : World) :
  BasicConfig (conf1 ++ conf2) w = (BasicConfig conf1;; BasicConfig conf2) w.
Proof.
  revert w. induction conf1 as [|[k v] conf1 IH]; intros w; [done|].
  simpl. rewrite !bind_unfold.
  destruct (BasicConfig_entry k v w) as [[] w1|w1|c w1]; [|done..].
  by rewrite IH.
Qed.

(** X22.  [BasicConfig] is not all or nothing: when the entries visited
    first are well typed and the next one is not, it panics in the
    world in which the first ones have been applied. *)
Theorem BasicConfig_is_not_atomic (conf1 rest : list (string * value))
    (bad : string * value) (w : World) :
  forallb entry_ok conf1 = true →
  entry_ok bad = false →
  ∃ w1, BasicConfig conf1 w = Ret () w1 ∧
        BasicConfig (conf1 ++ bad :: rest) w = Panic w1.
Proof.
  intros Hok Hbad. pose proof (BasicConfig_spec conf1 w) as Hspec.
  rewrite Hok in Hspec. destruct Hspec as [w1 Hw1]. exists w1.
  split; [done|]. rewrite BasicConfig_app, bind_unfold, Hw1.
  destruct bad as [k v]. cbn [BasicConfig]. rewrite bind_unfold.
  pose proof (BasicConfig_entry_spec k v w1) as Hkv. rewrite Hbad in Hkv.
  by rewrite Hkv.
Qed.
End Constructors.

Lemma NewStreamHandler_ignores_config_stream_witness :
  ∃ w',
    (BasicConfig (RT := go_fragment) [("stream", VWriter (Buffer 3))];;
     h ← NewStreamHandler [];
     LogHandler_Handle (RT := go_fragment) h (NewLogRecord ERROR "app" "boom" []))
      initial_world = Ret () w' ∧
    c_stream (config w') = Some (Buffer 3) ∧
    events w'
    = [EvHandle 0 (NewLogRecord ERROR "app" "boom" []);
       EvWrite Stderr ("ERROR: 2026-10-31 12:00:00 - boom" +:+ newline)].
Proof.
  exact (NewStreamHandler_ignores_config_stream (RT := go_fragment)
           initial_world (Buffer 3) (NewLogRecord ERROR "app" "boom" [])
           eq_refl).
Defined.

Lemma BasicConfig_is_not_atomic_witness :
  ∃ w1,
    BasicConfig (RT := go_fragment) [("format", VString "{message}")]
      initial_world = Ret () w1 ∧
    BasicConfig (RT := go_fragment)
      ([("format", VString "{message}")] ++ ("datefmt", VInt 7) :: [])
      initial_world = Panic w1.
Proof.
  exact (BasicConfig_is_not_atomic (RT := go_fragment)
           [("format", VString "{message}")] [] ("datefmt", VInt 7)
           initial_world eq_refl eq_refl).
Defined.
